(** * Blindfold-Chess: move generator and target selector

    A shallow embedding of [services/chessLogic.ts] (the move generator
    [getLegalMoves], [canPieceReach] and the target selector
    [generateTargetSquare]), of the stand-alone documented copy of the move
    generator, and of the history update performed by [handlePieceSelect] in
    [App.tsx].

    Conventions of the embedding.
    - A JavaScript [number] that holds a square, a row, a column or a count is
      an integer of [Z]; [Math.floor(square / 8)] is [Z.div] (which floors) and
      [square % 8] is [Z.rem] (the sign follows the dividend, as in JavaScript).
    - A JavaScript [number] that holds a weight or a random draw is read in
      two ways.  Module [ChessLogic] reads it as an exact rational of [Q]
      ([0.3] and [0.6] are [3/10] and [6/10]); this reading serves the
      properties that do not depend on which slot a draw lands on: which
      branch is taken, that the result is an entry of the pool, that it is a
      number.  Module [Binary64] reads it as the IEEE double the code holds,
      on Rocq's primitive floats, operation by operation; every property that
      names a weight, a draw value or the entry a draw selects is stated
      there.
    - [Math.random()] is an explicit argument [u]; its contract is [0 <= u < 1].
    - A JavaScript [Map] is an association list in insertion order: [set] on a
      present key overwrites in place, [set] on a new key appends.
    - Reading an array out of range yields [undefined]: the selector returns
      [option Z], with [None] for [undefined]. *)

From Stdlib Require Import String ZArith QArith Qround Qminmax Qabs Floats List Bool Lia Arith.
From Stdlib Require DecimalNat DecimalString Finite.
From Stdlib Require Import Permutation.
Import ListNotations.

Local Open Scope Z_scope.

(** ** types.ts *)

Inductive PieceType := QUEEN | ROOK | BISHOP | KNIGHT | KING | PAWN.
Inductive PieceColor := WHITE | BLACK.

Record Piece := mkPiece {
  id : string;
  type : PieceType;
  color : PieceColor;
  square : Z;
  isVisible : bool
}.

(** [a === b] on piece kinds. *)
Definition PieceType_eqb (a b : PieceType) : bool :=
  match a, b with
  | QUEEN, QUEEN | ROOK, ROOK | BISHOP, BISHOP
  | KNIGHT, KNIGHT | KING, KING | PAWN, PAWN => true
  | _, _ => false
  end.

Inductive GamePhase := START | OBSERVING | PLAYING | GAMEOVER.

Inductive Difficulty := EASY | INTERMEDIATE | HARD.

(** The values [targetSquare] can hold: [number | null] by its type, and
    [undefined] if the selector ever read outside an array. *)
Inductive Target := Null | Undefined | Num (sq : Z).

Record GameState := mkGameState {
  phase : GamePhase;
  difficulty : Difficulty;
  pieces : list Piece;
  targetSquare : Target;
  score : Z;
  strikes : Z;
  timeLeft : Z;
  lastMoveLine : option (Z * Z);
  correctMoves : Z;
  currentStreak : Z;
  bestStreak : Z;
  moveHistory : list string
}.

(** ** Helpers shared by both copies of the move generator *)

(** [[...new Set(moves)]]: duplicates are dropped, the first occurrence of
    every value stays, insertion order is kept. *)
Fixpoint setOf (seen : list Z) (moves : list Z) : list Z :=
  match moves with
  | [] => []
  | m :: rest =>
      if existsb (Z.eqb m) seen then setOf seen rest
      else m :: setOf (m :: seen) rest
  end.

(** [blockers.includes(sq)] *)
Definition includes (l : list Z) (sq : Z) : bool := existsb (Z.eqb sq) l.

Definition onBoard (r c : Z) : bool :=
  (0 <=? r) && (r <? 8) && (0 <=? c) && (c <? 8).

(** Number of iterations granted to the [while] loop of [addSlidingMoves];
    lemma [slide_fuel_irrelevant] shows that the loop never needs more. *)
Definition slideFuel : nat := 8.

(** ** JavaScript [Map]: association lists in insertion order *)

Section JsMap.
Context {K V : Type} (eqb : K -> K -> bool).

(** [m.get(k)]; [None] stands for [undefined]. *)
Fixpoint mget (k : K) (m : list (K * V)) : option V :=
  match m with
  | [] => None
  | (k', v) :: rest => if eqb k k' then Some v else mget k rest
  end.

(** [m.set(k, v)]: a present key keeps its position, a new key goes last. *)
Fixpoint mset (k : K) (v : V) (m : list (K * V)) : list (K * V) :=
  match m with
  | [] => [(k, v)]
  | (k', v') :: rest =>
      if eqb k k' then (k, v) :: rest else (k', v') :: mset k v rest
  end.
End JsMap.

(** [x || 0] on a count that may be [undefined]. *)
Definition orZero (o : option Z) : Z :=
  match o with Some n => n | None => 0 end.

(** [x || 0] on a weight that may be [undefined]. *)
Definition orZeroQ (o : option Q) : Q :=
  match o with Some w => w | None => 0%Q end.

(** [a < b] on weights. *)
Definition Qltb (a b : Q) : bool := negb (Qle_bool b a).

(** [arr[i]]: [undefined] outside the array. *)
Definition at_index {A : Type} (arr : list A) (i : Z) : option A :=
  if i <? 0 then None else nth_error arr (Z.to_nat i).

(** [Math.floor(u * n)] for the value [u] returned by [Math.random()]. *)
Definition randomIndex (u : Q) (n : nat) : Z :=
  Qfloor (u * inject_Z (Z.of_nat n)).

(** ** services/chessLogic.ts *)

Module ChessLogic.

Definition addIfOnBoard (r c : Z) : option Z :=
  if onBoard r c then Some (r * 8 + c) else None.

(** The [while] loop of [addSlidingMoves] for one direction, started at
    [(r, c)]; returns the squares pushed, in push order. *)
Fixpoint slide (fuel : nat) (blockers : list Z) (dr dc r c : Z) : list Z :=
  match fuel with
  | O => []
  | S fuel' =>
      if onBoard r c then
        let targetSquare := r * 8 + c in
        if includes blockers targetSquare then [targetSquare]
        else targetSquare :: slide fuel' blockers dr dc (r + dr) (c + dc)
      else []
  end.

Definition addSlidingMoves (row col : Z) (blockers : list Z)
           (directions : list (Z * Z)) : list Z :=
  flat_map (fun d => slide slideFuel blockers (fst d) (snd d)
                           (row + fst d) (col + snd d)) directions.

Definition knightOffsets : list (Z * Z) :=
  [(-2, -1); (-2, 1); (-1, -2); (-1, 2); (1, -2); (1, 2); (2, -1); (2, 1)].

Definition rookDirections : list (Z * Z) := [(-1, 0); (1, 0); (0, -1); (0, 1)].
Definition bishopDirections : list (Z * Z) := [(-1, -1); (-1, 1); (1, -1); (1, 1)].
Definition queenDirections : list (Z * Z) :=
  [(-1, 0); (1, 0); (0, -1); (0, 1); (-1, -1); (-1, 1); (1, -1); (1, 1)].

(** The two nested [for] loops of the KING case, [dr] outer and [dc] inner,
    with the [(0, 0)] iteration skipped. *)
Definition kingOffsets : list (Z * Z) :=
  filter (fun d => negb ((fst d =? 0) && (snd d =? 0)))
         (flat_map (fun dr => map (fun dc => (dr, dc)) [-1; 0; 1]) [-1; 0; 1]).

Definition stepMoves (row col : Z) (offsets : list (Z * Z)) : list Z :=
  flat_map (fun d => match addIfOnBoard (row + fst d) (col + snd d) with
                     | Some target => [target]
                     | None => []
                     end) offsets.

(** The [moves] array just before the final [new Set]. *)
Definition rawMoves (square : Z) (type : PieceType) (blockers : list Z) : list Z :=
  let row := square / 8 in
  let col := Z.rem square 8 in
  match type with
  | KNIGHT => stepMoves row col knightOffsets
  | ROOK => addSlidingMoves row col blockers rookDirections
  | BISHOP => addSlidingMoves row col blockers bishopDirections
  | QUEEN => addSlidingMoves row col blockers queenDirections
  | KING => stepMoves row col kingOffsets
  | PAWN => []
  end.

Definition getLegalMoves (square : Z) (type : PieceType) (blockers : list Z) : list Z :=
  setOf [] (rawMoves square type blockers).

Definition canPieceReach (from to : Z) (type : PieceType) (pieces : list Piece) : bool :=
  let blockers := filter (fun sq => negb (sq =? from)) (map square pieces) in
  includes (getLegalMoves from type blockers) to.

(** *** generateTargetSquare *)

(** The three maps filled by step 1. *)
Record Reach := mkReach {
  pieceMoves : list (string * list Z);
  squareReachCounts : list (Z * Z);
  squareReacher : list (Z * string)
}.

Definition emptyReach : Reach := mkReach [] [] [].

Definition blockersOf (pieces : list Piece) (p : Piece) : list Z :=
  filter (fun sq => negb (sq =? square p)) (map square pieces).

(** [validMoves] of piece [p]: its legal moves that no piece stands on. *)
Definition validMovesOf (pieces : list Piece) (p : Piece) : list Z :=
  filter (fun m => negb (existsb (fun occupied => square occupied =? m) pieces))
         (getLegalMoves (square p) (type p) (blockersOf pieces p)).

(** Body of [validMoves.forEach]. *)
Definition noteMove (pid : string) (st : Reach) (m : Z) : Reach :=
  let count := orZero (mget Z.eqb m (squareReachCounts st)) in
  mkReach (pieceMoves st)
          (mset Z.eqb m (count + 1) (squareReachCounts st))
          (if count =? 0 then mset Z.eqb m pid (squareReacher st)
           else squareReacher st).

(** Body of the first [pieces.forEach]. *)
Definition visitPiece (pieces : list Piece) (st : Reach) (p : Piece) : Reach :=
  let validMoves := validMovesOf pieces p in
  fold_left (noteMove (id p)) validMoves
            (mkReach (mset String.eqb (id p) validMoves (pieceMoves st))
                     (squareReachCounts st) (squareReacher st)).

Definition reachability (pieces : list Piece) : Reach :=
  fold_left (visitPiece pieces) pieces emptyReach.

Definition uniqueTargetsOf (counts : list (Z * Z)) : list Z :=
  map fst (filter (fun e => snd e =? 1) counts).

Definition allMovesOf (moves : list (string * list Z)) : list Z :=
  flat_map snd moves.

(** Step 3 for one piece id, before the clamp. *)
Definition rawWeight (history : list string) (pid : string) : Q :=
  let weight := 1%Q in
  let historyCount := length (filter (fun i => String.eqb i pid) history) in
  let weight := (weight - inject_Z (Z.of_nat historyCount) * (3 # 10))%Q in
  let last := nth_error history (length history - 1) in
  let weight :=
    if (0 <? length history)%nat &&
       match last with Some i => String.eqb i pid | None => false end
    then (weight - (6 # 10))%Q else weight in
  let weight :=
    if (2 <=? length history)%nat &&
       match last with Some i => String.eqb i pid | None => false end &&
       match nth_error history (length history - 2) with
       | Some i => String.eqb i pid
       | None => false
       end
    then 0%Q else weight in
  weight.

(** [Math.max(0, weight)] *)
Definition clamp (weight : Q) : Q := if Qltb 0 weight then weight else 0%Q.

Definition pieceWeight (history : list string) (pid : string) : Q :=
  clamp (rawWeight history pid).

Definition pieceWeightsOf (pieces : list Piece) (history : list string)
  : list (string * Q) :=
  fold_left (fun m p => mset String.eqb (id p) (pieceWeight history (id p)) m)
            pieces [].

Definition weightedPoolOf (st : Reach) (weights : list (string * Q))
           (uniqueTargets : list Z) : list (Z * Q) :=
  map (fun sq =>
         let weight :=
           match mget Z.eqb sq (squareReacher st) with
           | Some pieceId => orZeroQ (mget String.eqb pieceId weights)
           | None => 0%Q
           end in
         (sq, weight)) uniqueTargets.

Definition totalWeight (pool : list (Z * Q)) : Q :=
  fold_left (fun total item => (total + snd item)%Q) pool 0%Q.

(** The [for ... of weightedPool] loop; [None] when it runs to the end. *)
Fixpoint weightedWalk (random : Q) (pool : list (Z * Q)) : option Z :=
  match pool with
  | [] => None
  | item :: rest =>
      if Qltb random (snd item) then Some (fst item)
      else weightedWalk (random - snd item)%Q rest
  end.

(** Lines 146-152: the loop followed by [return weightedPool[0].sq].  The
    pool is never empty there; on an empty pool the read of [.sq] would throw,
    which [None] stands for as well. *)
Definition weightedDraw (random : Q) (pool : list (Z * Q)) : option Z :=
  match weightedWalk random pool with
  | Some sq => Some sq
  | None => option_map fst (at_index pool 0)
  end.

Definition generateTargetSquare (u : Q) (pieces : list Piece)
           (history : list string) : option Z :=
  let st := reachability pieces in
  let uniqueTargets := uniqueTargetsOf (squareReachCounts st) in
  if (length uniqueTargets =? 0)%nat then
    let allMoves := allMovesOf (pieceMoves st) in
    if (length allMoves =? 0)%nat then Some (-1)
    else at_index allMoves (randomIndex u (length allMoves))
  else
    let pieceWeights := pieceWeightsOf pieces history in
    let weightedPool := weightedPoolOf st pieceWeights uniqueTargets in
    let totalPoolWeight := totalWeight weightedPool in
    if Qle_bool totalPoolWeight 0 then
      at_index uniqueTargets (randomIndex u (length uniqueTargets))
    else
      weightedDraw (u * totalPoolWeight)%Q weightedPool.

(** Names for the intermediate values of [generateTargetSquare]. *)

Definition reachCount (pieces : list Piece) (sq : Z) : Z :=
  orZero (mget Z.eqb sq (squareReachCounts (reachability pieces))).

Definition uniqueTargets (pieces : list Piece) : list Z :=
  uniqueTargetsOf (squareReachCounts (reachability pieces)).

(** [allMoves], the pool of the fallback draw. *)
Definition fallbackPool (pieces : list Piece) : list Z :=
  allMovesOf (pieceMoves (reachability pieces)).

Definition weightedPool (pieces : list Piece) (history : list string)
  : list (Z * Q) :=
  weightedPoolOf (reachability pieces) (pieceWeightsOf pieces history)
                 (uniqueTargets pieces).

(** [random] as first assigned on line 146. *)
Definition drawValue (u : Q) (pieces : list Piece) (history : list string) : Q :=
  (u * totalWeight (weightedPool pieces history))%Q.

(** *** getRandomSquare

    The [do ... while] loop draws until a square outside [exclude] comes up.
    [draws] lists the values [Math.random()] is going to return; the result
    carries the draws not yet consumed, and [None] says that the loop is
    still running when the listed draws are used up.  A draw is the rational
    its double stands for: 64 is a power of two, so the product is exact in
    binary64 and its floor is the index the code computes. *)
Fixpoint getRandomSquare (draws : list Q) (exclude : list Z) : option (Z * list Q) :=
  match draws with
  | [] => None
  | u :: rest =>
      let sq := randomIndex u 64 in
      if includes exclude sq then getRandomSquare rest exclude
      else Some (sq, rest)
  end.

End ChessLogic.

(** ** The selector in binary64

    Lines 104-152 once more, with every weight, sum, draw and product the
    IEEE double the code computes: each [+], [-], [*] rounds to nearest, and
    [<], [<=] compare doubles. *)

Module Binary64.

(** The doubles nearest to the literals [0.3] and [0.6]. *)
Definition lit_0_3 : float := 0x1.3333333333333p-2%float.
Definition lit_0_6 : float := 0x1.3333333333333p-1%float.

Definition rawWeight (history : list string) (pid : string) : float :=
  let weight := 1%float in
  let historyCount := List.length (filter (fun i => String.eqb i pid) history) in
  let weight :=
    (weight - PrimFloat.of_uint63 (Uint63.of_Z (Z.of_nat historyCount)) * lit_0_3)%float in
  let last := nth_error history (List.length history - 1) in
  let weight :=
    if (0 <? List.length history)%nat &&
       match last with Some i => String.eqb i pid | None => false end
    then (weight - lit_0_6)%float else weight in
  let weight :=
    if (2 <=? List.length history)%nat &&
       match last with Some i => String.eqb i pid | None => false end &&
       match nth_error history (List.length history - 2) with
       | Some i => String.eqb i pid
       | None => false
       end
    then 0%float else weight in
  weight.

(** [Math.max(0, weight)]; a NaN argument comes back as NaN. *)
Definition clamp (weight : float) : float :=
  if PrimFloat.is_nan weight then weight
  else if PrimFloat.ltb 0 weight then weight else 0%float.

Definition pieceWeight (history : list string) (pid : string) : float :=
  clamp (rawWeight history pid).

(** The rational a finite double stands for. *)
Definition valueOf (f : float) : option Q :=
  match Prim2SF f with
  | S754_zero _ => Some 0%Q
  | S754_finite s m e =>
      let magnitude :=
        match e with
        | Z0 => inject_Z (Zpos m)
        | Zpos p => inject_Z (Zpos m * 2 ^ Zpos p)
        | Zneg p => Qmake (Zpos m) (2 ^ p)%positive
        end in
      Some (if s then (- magnitude)%Q else magnitude)
  | S754_infinity _ => None
  | S754_nan => None
  end.

(** [x || 0] on a weight that may be [undefined]: zero and NaN are falsy. *)
Definition orZero (o : option float) : float :=
  match o with
  | Some w => if PrimFloat.eqb w 0 || PrimFloat.is_nan w then 0%float else w
  | None => 0%float
  end.

(** The second [pieces.forEach]: the map [pieceWeights]. *)
Definition pieceWeightsOf (pieces : list Piece) (history : list string)
  : list (string * float) :=
  fold_left (fun m p => mset String.eqb (id p) (pieceWeight history (id p)) m)
            pieces [].

Definition weightedPoolOf (st : ChessLogic.Reach) (weights : list (string * float))
           (uniqueTargets : list Z) : list (Z * float) :=
  map (fun sq =>
         let weight :=
           match mget Z.eqb sq (ChessLogic.squareReacher st) with
           | Some pieceId => orZero (mget String.eqb pieceId weights)
           | None => 0%float
           end in
         (sq, weight)) uniqueTargets.

(** [totalPoolWeight], summed entry by entry as the [map] callback does. *)
Definition totalWeight (pool : list (Z * float)) : float :=
  fold_left (fun total item => (total + snd item)%float) pool 0%float.

(** The [for ... of weightedPool] loop; [None] when it runs to the end. *)
Fixpoint weightedWalk (random : float) (pool : list (Z * float)) : option Z :=
  match pool with
  | [] => None
  | item :: rest =>
      if PrimFloat.ltb random (snd item) then Some (fst item)
      else weightedWalk (random - snd item)%float rest
  end.

(** The loop followed by [return weightedPool[0].sq]. *)
Definition weightedDraw (random : float) (pool : list (Z * float)) : option Z :=
  match weightedWalk random pool with
  | Some sq => Some sq
  | None => option_map fst (at_index pool 0)
  end.

(** An array length as a double. *)
Definition lengthOf (n : nat) : float :=
  PrimFloat.of_uint63 (Uint63.of_Z (Z.of_nat n)).

(** [Math.floor(u * n)]: the floor of the rounded product; [None] when the
    product is no finite number. *)
Definition randomIndex (u : float) (n : nat) : option Z :=
  option_map Qfloor (valueOf (u * lengthOf n)%float).

(** [arr[i]] at such an index. *)
Definition pick {A : Type} (arr : list A) (i : option Z) : option A :=
  match i with
  | Some k => at_index arr k
  | None => None
  end.

(** [generateTargetSquare] with every [number] a double.  Step 1 holds only
    integers and is the one of [ChessLogic]. *)
Definition generateTargetSquare (u : float) (pieces : list Piece)
           (history : list string) : option Z :=
  let st := ChessLogic.reachability pieces in
  let uniqueTargets := ChessLogic.uniqueTargetsOf (ChessLogic.squareReachCounts st) in
  if (List.length uniqueTargets =? 0)%nat then
    let allMoves := ChessLogic.allMovesOf (ChessLogic.pieceMoves st) in
    if (List.length allMoves =? 0)%nat then Some (-1)
    else pick allMoves (randomIndex u (List.length allMoves))
  else
    let pieceWeights := pieceWeightsOf pieces history in
    let weightedPool := weightedPoolOf st pieceWeights uniqueTargets in
    let totalPoolWeight := totalWeight weightedPool in
    if PrimFloat.leb totalPoolWeight 0 then
      pick uniqueTargets (randomIndex u (List.length uniqueTargets))
    else
      weightedDraw (u * totalPoolWeight)%float weightedPool.

Definition weightedPool (pieces : list Piece) (history : list string)
  : list (Z * float) :=
  weightedPoolOf (ChessLogic.reachability pieces) (pieceWeightsOf pieces history)
                 (ChessLogic.uniqueTargets pieces).

(** [random] as first assigned on line 146. *)
Definition drawValue (u : float) (pieces : list Piece) (history : list string)
  : float :=
  (u * totalWeight (weightedPool pieces history))%float.

(** What is left of the draw once the loop has gone past [before]. *)
Definition remainder (random : float) (before : list (Z * float)) : float :=
  fold_left (fun left item => (left - snd item)%float) before random.

(** The loop goes past every entry of [before]: none of them has a weight
    above what is left of the draw when the loop looks at it. *)
Fixpoint passesOver (random : float) (before : list (Z * float)) : bool :=
  match before with
  | [] => true
  | item :: rest =>
      negb (PrimFloat.ltb random (snd item)) &&
      passesOver (random - snd item)%float rest
  end.

(** Draws used in examples: the largest double below 1, and a double whose
    product with 22 rounds up to 17. *)
Definition almostOne : float := 0x1.ffffffffffffep-1%float.
Definition roundsUp : float := 0x1.8ba2e8ba2e8bap-1%float.

End Binary64.

(** ** The stand-alone, documented copy of the move generator *)

Module MoveLogic.

Definition addIfOnBoard (r c : Z) : option Z :=
  if onBoard r c then Some (r * 8 + c) else None.

(** Helper for sliding pieces: the [while] loop for one direction.  If
    there is a blocker on the square just pushed, the loop stops. *)
Fixpoint slide (fuel : nat) (blockers : list Z) (dr dc r c : Z) : list Z :=
  match fuel with
  | O => []
  | S fuel' =>
      if onBoard r c then
        let targetSquare := r * 8 + c in
        targetSquare ::
          (if includes blockers targetSquare then []
           else slide fuel' blockers dr dc (r + dr) (c + dc))
      else []
  end.

Definition addSlidingMoves (row col : Z) (blockers : list Z)
           (directions : list (Z * Z)) : list Z :=
  flat_map (fun d => let '(dr, dc) := d in
                     slide slideFuel blockers dr dc (row + dr) (col + dc))
           directions.

Definition knightOffsets : list (Z * Z) :=
  [(-2, -1); (-2, 1); (-1, -2); (-1, 2);
   (1, -2); (1, 2); (2, -1); (2, 1)].

Definition kingMoves (row col : Z) : list Z :=
  flat_map (fun dr =>
    flat_map (fun dc =>
      if (dr =? 0) && (dc =? 0) then []
      else match addIfOnBoard (row + dr) (col + dc) with
           | Some target => [target]
           | None => []
           end) [-1; 0; 1]) [-1; 0; 1].

Definition getLegalMoves (square : Z) (type : PieceType) (blockers : list Z) : list Z :=
  let row := square / 8 in
  let col := Z.rem square 8 in
  let moves :=
    match type with
    | KNIGHT =>
        flat_map (fun d => let '(dr, dc) := d in
                           match addIfOnBoard (row + dr) (col + dc) with
                           | Some target => [target]
                           | None => []
                           end) knightOffsets
    | ROOK => addSlidingMoves row col blockers [(-1, 0); (1, 0); (0, -1); (0, 1)]
    | BISHOP => addSlidingMoves row col blockers [(-1, -1); (-1, 1); (1, -1); (1, 1)]
    | QUEEN =>
        addSlidingMoves row col blockers
          [(-1, 0); (1, 0); (0, -1); (0, 1);
           (-1, -1); (-1, 1); (1, -1); (1, 1)]
    | KING => kingMoves row col
    | PAWN => []
    end in
  setOf [] moves.

Definition canPieceReach (from to : Z) (type : PieceType) (pieces : list Piece) : bool :=
  let blockers := filter (fun sq => negb (sq =? from)) (map square pieces) in
  includes (getLegalMoves from type blockers) to.

End MoveLogic.

(** ** App.tsx: the history update of [handlePieceSelect] *)

Module App.

(** [const updatedHistory = [...prev.moveHistory, validPiece.id];
     if (updatedHistory.length > 5) updatedHistory.shift();] *)
Definition updateHistory (moveHistory : list string) (pieceId : string)
  : list string :=
  let updatedHistory := moveHistory ++ [pieceId] in
  if (5 <? List.length updatedHistory)%nat then tl updatedHistory
  else updatedHistory.

(** The history after a run of accepted moves, from the empty history that
    [startGame] installs. *)
Definition historyAfter (moved : list string) : list string :=
  fold_left updateHistory moved [].

Definition START_TIME : Z := 120.
Definition MAX_STRIKES : Z := 5.

(** The state [useState] starts from. *)
Definition initialState : GameState :=
  mkGameState START EASY [] Null 0 0 START_TIME None 0 0 0 [].

(** The template literal [`p-${i}`]. *)
Definition pieceId (i : nat) : string :=
  ("p-" ++ DecimalString.NilEmpty.string_of_uint (Nat.to_uint i))%string.

(** The [selectedTypes.forEach((type, i) => ...)] loop of [startGame], from
    index [i] on, with the arrays as they stand. *)
Fixpoint placePieces (draws : list Q) (types : list PieceType) (i : nat)
         (usedSquares : list Z) (selectedPieces : list Piece)
  : option (list Piece * list Q) :=
  match types with
  | [] => Some (selectedPieces, draws)
  | type :: rest =>
      match ChessLogic.getRandomSquare draws usedSquares with
      | None => None
      | Some (square, draws') =>
          placePieces draws' rest (S i) (usedSquares ++ [square])
                      (selectedPieces ++ [mkPiece (pieceId i) type WHITE square true])
      end
  end.

Definition availableTypes : list PieceType := [QUEEN; ROOK; BISHOP; KNIGHT].

Definition pieceCountOf (diff : Difficulty) : nat :=
  match diff with
  | EASY => 2
  | INTERMEDIATE => 3
  | HARD => 4
  end.

(** [startGame(diff)].  [shuffledTypes] is what
    [[...availableTypes].sort(() => Math.random() - 0.5)] came out as: with
    such a comparator the order is up to the engine, so it is an input here.
    The result is the state handed to [setState], with the draws left. *)
Definition startGame (draws : list Q) (shuffledTypes : list PieceType)
           (diff : Difficulty) : option (GameState * list Q) :=
  let pieceCount := pieceCountOf diff in
  let selectedTypes := firstn pieceCount shuffledTypes in
  match placePieces draws selectedTypes 0 [] [] with
  | None => None
  | Some (selectedPieces, draws') =>
      Some (mkGameState OBSERVING diff selectedPieces Null 0 0 START_TIME None
                        0 0 0 [], draws')
  end.

(** What [generateTargetSquare] returned, as a value of [targetSquare]. *)
Definition targetOf (result : option Z) : Target :=
  match result with
  | Some sq => Num sq
  | None => Undefined
  end.

(** The updater run when the countdown reaches 0. *)
Definition startPlaying (u : Q) (prev : GameState) : GameState :=
  match phase prev with
  | OBSERVING =>
      let nextTarget :=
        ChessLogic.generateTargetSquare u (pieces prev) (moveHistory prev) in
      mkGameState PLAYING (difficulty prev)
                  (map (fun p => mkPiece (id p) (type p) (color p) (square p) false)
                       (pieces prev))
                  (targetOf nextTarget) (score prev) (strikes prev) (timeLeft prev)
                  None (correctMoves prev) (currentStreak prev) (bestStreak prev)
                  (moveHistory prev)
  | _ => prev
  end.

(** The updater of the one-second interval. *)
Definition tick (prev : GameState) : GameState :=
  if timeLeft prev <=? 1 then
    mkGameState GAMEOVER (difficulty prev) (pieces prev) (targetSquare prev)
                (score prev) (strikes prev) 0 (lastMoveLine prev)
                (correctMoves prev) (currentStreak prev) (bestStreak prev)
                (moveHistory prev)
  else
    mkGameState (phase prev) (difficulty prev) (pieces prev) (targetSquare prev)
                (score prev) (strikes prev) (timeLeft prev - 1) (lastMoveLine prev)
                (correctMoves prev) (currentStreak prev) (bestStreak prev)
                (moveHistory prev).

(** The guard at the top of [handlePieceSelect]: [true] when the click is
    looked at. *)
Definition clickAccepted (state : GameState) (isPaused isProcessing : bool) : bool :=
  match phase state, targetSquare state with
  | PLAYING, Null => false
  | PLAYING, _ => negb isPaused && negb isProcessing
  | _, _ => false
  end.

(** [state.pieces.find(p => p.type === type && canPieceReach(...))].  A target
    that is no number is in no list of moves. *)
Definition findValidPiece (state : GameState) (type' : PieceType) : option Piece :=
  match targetSquare state with
  | Num target =>
      find (fun p => PieceType_eqb (type p) type' &&
                     ChessLogic.canPieceReach (square p) target (type p) (pieces state))
           (pieces state)
  | _ => None
  end.

(** The updater of the correct branch.  [None] when [prev.targetSquare] is no
    number: the moved piece would get a square that is none. *)
Definition moveUpdater (u : Q) (validPiece : Piece) (prev : GameState)
  : option GameState :=
  match targetSquare prev with
  | Num userMoveTo =>
      let userMoveFrom := square validPiece in
      let updatedPieces :=
        map (fun p => if String.eqb (id p) (id validPiece)
                      then mkPiece (id p) (type p) (color p) userMoveTo (isVisible p)
                      else p) (pieces prev) in
      let updatedHistory := updateHistory (moveHistory prev) (id validPiece) in
      let nextTarget :=
        ChessLogic.generateTargetSquare u updatedPieces updatedHistory in
      let newStreak := currentStreak prev + 1 in
      Some (mkGameState (phase prev) (difficulty prev) updatedPieces
                        (targetOf nextTarget) (score prev + 10) (strikes prev)
                        (timeLeft prev) (Some (userMoveFrom, userMoveTo))
                        (correctMoves prev + 1) newStreak
                        (Z.max (bestStreak prev) newStreak) updatedHistory)
  | _ => None
  end.

(** The updater of the incorrect branch. *)
Definition missUpdater (prev : GameState) : GameState :=
  let newStrikes := strikes prev + 1 in
  if MAX_STRIKES <=? newStrikes then
    mkGameState GAMEOVER (difficulty prev) (pieces prev) (targetSquare prev)
                (score prev) newStrikes (timeLeft prev) (lastMoveLine prev)
                (correctMoves prev) 0 (bestStreak prev) (moveHistory prev)
  else
    mkGameState (phase prev) (difficulty prev) (pieces prev) (targetSquare prev)
                (score prev) newStrikes (timeLeft prev) (lastMoveLine prev)
                (correctMoves prev) 0 (bestStreak prev) (moveHistory prev).

(** [handlePieceSelect(type)]: from the state seen at the click, the updater
    it hands to [setState] ([u] is the draw the next target will use). *)
Definition handlePieceSelect (u : Q) (isPaused isProcessing : bool)
           (type' : PieceType) (state : GameState)
  : GameState -> option GameState :=
  if clickAccepted state isPaused isProcessing then
    match findValidPiece state type' with
    | Some validPiece => moveUpdater u validPiece
    | None => fun prev => Some (missUpdater prev)
    end
  else fun prev => Some prev.

End App.

(** ** The earlier App.tsx: generateNewTarget *)

Module EarlyApp.

(** [generateNewTarget(currentPieces)]: [u1] is the draw that picks the piece,
    [u2] the draw that picks its target, both doubles.  [None] stands for
    [undefined] and for the throw on reading [.square] of no piece. *)
Definition generateNewTarget (u1 u2 : float) (currentPieces : list Piece) : option Z :=
  match Binary64.pick currentPieces
          (Binary64.randomIndex u1 (List.length currentPieces)) with
  | None => None
  | Some randomPiece =>
      let blockers :=
        filter (fun sq => negb (sq =? square randomPiece)) (map square currentPieces) in
      let legalMoves :=
        ChessLogic.getLegalMoves (square randomPiece) (type randomPiece) blockers in
      let availableTargets :=
        filter (fun m => negb (existsb (fun p => square p =? m) currentPieces))
               legalMoves in
      if (List.length availableTargets =? 0)%nat then
        Binary64.pick legalMoves (Binary64.randomIndex u2 (List.length legalMoves))
      else
        Binary64.pick availableTargets
          (Binary64.randomIndex u2 (List.length availableTargets))
  end.

End EarlyApp.

(** ** components/ChessBoard.tsx *)

Module ChessBoard.

(** The two board entries of [PALETTE]; their values live in a constants
    file and play no part here. *)
Inductive BoardColor := BOARD_LIGHT | BOARD_DARK.

Definition getSquareColor (idx : Z) : BoardColor :=
  let row := idx / 8 in
  let col := Z.rem idx 8 in
  if Z.rem (row + col) 2 =? 0 then BOARD_LIGHT else BOARD_DARK.

(** End point of the move line, in the 100 by 100 view box; [12.5] and
    [6.25] are exact in binary. *)
Definition getCoordinatesForLine (idx : Z) : Q * Q :=
  let row := idx / 8 in
  let col := Z.rem idx 8 in
  ((inject_Z col * (25 # 2) + (25 # 4))%Q, (inject_Z row * (25 # 2) + (25 # 4))%Q).

End ChessBoard.

(** ** Reference definitions, worded after the specification *)

Module Spec.

(** The [n] most recent entries of a sequence, in order. *)
Definition mostRecent {A : Type} (n : nat) (l : list A) : list A :=
  skipn (List.length l - n) l.

(** Weight of a piece: start at 1.0, subtract 0.3 for each occurrence of
    the id in the history, subtract 0.6 more if the last entry is the id,
    force 0 if the last two entries both are the id, clamp at 0. *)
Definition repetitionPenalty (pid : string) (history : list string) : Q :=
  fold_right (fun i w => if String.eqb i pid then (w + (3 # 10))%Q else w)
             0%Q history.

Definition isLast (pid : string) (history : list string) : bool :=
  match rev history with
  | i :: _ => String.eqb i pid
  | [] => false
  end.

Definition isLastTwo (pid : string) (history : list string) : bool :=
  match rev history with
  | i :: j :: _ => String.eqb i pid && String.eqb j pid
  | _ => false
  end.

Definition weight (pid : string) (history : list string) : Q :=
  let w := (1 - repetitionPenalty pid history)%Q in
  let w := if isLast pid history then (w - (6 # 10))%Q else w in
  let w := if isLastTwo pid history then 0%Q else w in
  Qmax 0 w.

(** First pool square whose cumulative weight strictly exceeds the draw, the
    cumulative weight being summed on doubles as the total is. *)
Fixpoint firstExceedingDouble (cumulative r : float) (pool : list (Z * float))
  : option Z :=
  match pool with
  | [] => None
  | (sq, w) :: rest =>
      let cumulative := (cumulative + w)%float in
      if PrimFloat.ltb r cumulative then Some sq
      else firstExceedingDouble cumulative r rest
  end.

(** The pieces of [among] that reach [sq], in list order. *)
Definition reachers (pieces among : list Piece) (sq : Z) : list Piece :=
  filter (fun p => includes (ChessLogic.validMovesOf pieces p) sq) among.


(** On-board test and square of the [k]-th step from [square] in direction
    [(dr, dc)]. *)
Definition stepRow (square dr k : Z) : Z := square / 8 + k * dr.
Definition stepCol (square dc k : Z) : Z := Z.rem square 8 + k * dc.
Definition stepSquare (square dr dc k : Z) : Z :=
  stepRow square dr k * 8 + stepCol square dc k.
Definition stepOnBoard (square dr dc k : Z) : Prop :=
  0 <= stepRow square dr k < 8 /\ 0 <= stepCol square dc k < 8.

(** Direction set of a sliding kind (empty for the other kinds). *)
Definition directionsOf (type : PieceType) : list (Z * Z) :=
  match type with
  | ROOK => [(-1, 0); (1, 0); (0, -1); (0, 1)]
  | BISHOP => [(-1, -1); (-1, 1); (1, -1); (1, 1)]
  | QUEEN => [(-1, 0); (1, 0); (0, -1); (0, 1);
              (-1, -1); (-1, 1); (1, -1); (1, 1)]
  | _ => []
  end.

End Spec.

(** ** Vocabulary of the proofs *)

(** Square pushed by iteration [j] (counted from 0) of the sliding loop for
    direction [(dr, dc)] started at [(r, c)]. *)
Definition iterSquare (dr dc r c : Z) (j : nat) : Z :=
  (r + Z.of_nat j * dr) * 8 + (c + Z.of_nat j * dc).

(** Iterations left before the sliding loop walks off the board. *)
Definition room (dr dc r c : Z) : Z :=
  if dr =? 1 then 8 - r
  else if dr =? -1 then r + 1
  else if dc =? 1 then 8 - c
  else c + 1.

(** Count stored for a square, from the list of pieces that reach it. *)
Definition storedCount (l : list Piece) : option Z :=
  match l with
  | [] => None
  | _ => Some (Z.of_nat (List.length l))
  end.

(** A value [Math.random()] can return. *)
Definition unitDraw (u : Q) : Prop := (0 <= u)%Q /\ (u < 1)%Q.

(** The square a draw picks in [getRandomSquare]. *)
Definition drawnSquare (u : Q) : Z := randomIndex u 64.

(** The pieces stand on pairwise distinct squares of the board and carry
    pairwise distinct ids. *)
Definition boardOk (ps : list Piece) : Prop :=
  NoDup (map square ps) /\
  (forall p, In p ps -> 0 <= square p <= 63) /\
  NoDup (map id ps).




(** What the score board keeps true. *)
Definition scoreboardOk (s : GameState) : Prop :=
  score s = 10 * correctMoves s /\
  0 <= currentStreak s <= bestStreak s /\
  currentStreak s <= correctMoves s /\
  0 <= strikes s.

(** ** Concrete boards and histories used in examples *)

Module Boards.

Definition piece (pid : string) (kind : PieceType) (sq : Z) : Piece :=
  mkPiece pid kind WHITE sq false.

Definition fullHistory : list string :=
  ["p-0"; "p-1"; "p-0"; "p-2"; "p-1"]%string.

Definition sevenMoves : list string :=
  ["p-0"; "p-1"; "p-0"; "p-2"; "p-1"; "p-3"; "p-0"]%string.

(** A lone knight in the corner a8: two targets, both unique. *)
Definition loneKnight : list Piece := [piece "p-0" KNIGHT 0].

(** A knight on a8 and four bishops on b8, a7, h2, g1: every empty square
    that can be reached is reached by two pieces or by three. *)
Definition crossedBishops : list Piece :=
  [piece "p-0" KNIGHT 0; piece "p-1" BISHOP 1; piece "p-2" BISHOP 8;
   piece "p-3" BISHOP 55; piece "p-4" BISHOP 62].

(** A knight on a8 whose two moves, c7 and b6, both land on rooks. *)
Definition boxedKnight : list Piece :=
  [piece "p-0" KNIGHT 0; piece "p-1" ROOK 10; piece "p-2" ROOK 17].

(** A rook on a8 hemmed in by a knight on b8 and a bishop on a7. *)
Definition threePieces : list Piece :=
  [piece "p-0" ROOK 0; piece "p-1" KNIGHT 1; piece "p-2" BISHOP 8].

(** A bishop on a8 whose diagonal is cut at c6 by a pawn: b7 is the only
    square any piece can move to. *)
Definition corneredBishop : list Piece :=
  [piece "p-0" BISHOP 0; piece "p-1" PAWN 18].

(** A drill being played: the lone knight, asked for c7. *)
Definition playing : GameState :=
  mkGameState PLAYING EASY loneKnight (Num 10) 0 0 120 None 0 0 0 [].


(** A drill in which no piece can move to an empty square: the rook on a8 is
    shut in by pawns on b8 and a7, and the target is the sentinel. *)
Definition stalemate : GameState :=
  mkGameState PLAYING EASY
              [piece "p-0" ROOK 0; piece "p-1" PAWN 1; piece "p-2" PAWN 8]
              (Num (-1)) 30 1 100 (Some (16, 0)) 3 3 3 ["p-0"]%string.

(** Two bishops and three pawns in which two ids are used twice. *)
Definition sharedIds : list Piece :=
  [piece "p-0" BISHOP 0; piece "p-1" BISHOP 2;
   piece "p-0" PAWN 18; piece "p-1" PAWN 16; piece "p-2" PAWN 11].

End Boards.

(** * Properties *)

(** ** Sets and boards *)

Lemma existsb_eqb_In (x : Z) (l : list Z) :
  existsb (Z.eqb x) l = true <-> In x l.
Proof.
  rewrite existsb_exists. split.
  - intros [y [Hy Heq]]. apply Z.eqb_eq in Heq. now subst.
  - intros H. exists x. split; [assumption | apply Z.eqb_refl].
Qed.

Lemma includes_In (l : list Z) (x : Z) : includes l x = true <-> In x l.
Proof. apply existsb_eqb_In. Qed.

Lemma setOf_In (moves seen : list Z) (x : Z) :
  In x (setOf seen moves) <-> In x moves /\ ~ In x seen.
Proof.
  revert seen. induction moves as [|m rest IH]; intros seen; simpl.
  - tauto.
  - destruct (existsb (Z.eqb m) seen) eqn:E.
    + apply existsb_eqb_In in E. rewrite IH. split.
      * tauto.
      * intros [[->|H] Hn]; [contradiction | tauto].
    + assert (Hm : ~ In m seen).
      { intros H. apply existsb_eqb_In in H. congruence. }
      simpl. rewrite IH. simpl. split.
      * intros [->|[H Hn]]; [tauto|]. split; [tauto|]. intros H'. apply Hn. now right.
      * intros [[->|H] Hn]; [now left|].
        destruct (Z.eq_dec m x) as [->|Hne]; [now left|].
        right. split; [assumption|]. intros [?|?]; [congruence|contradiction].
Qed.

Lemma setOf_NoDup (moves seen : list Z) : NoDup (setOf seen moves).
Proof.
  revert seen. induction moves as [|m rest IH]; intros seen; simpl.
  - constructor.
  - destruct (existsb (Z.eqb m) seen); [apply IH|].
    constructor; [|apply IH].
    rewrite setOf_In. simpl. tauto.
Qed.

(** A duplicate-free array goes through [new Set] unchanged. *)
Lemma setOf_NoDup_id (moves seen : list Z) :
  NoDup moves -> (forall x, In x moves -> ~ In x seen) -> setOf seen moves = moves.
Proof.
  revert seen. induction moves as [|m rest IH]; intros seen Hnd Hseen; simpl.
  - reflexivity.
  - inversion Hnd as [|? ? Hm Hrest]; subst.
    destruct (existsb (Z.eqb m) seen) eqn:E.
    + apply existsb_eqb_In in E. exfalso. apply (Hseen m); simpl; auto.
    + f_equal. apply IH; [assumption|].
      intros x Hx [<-|Hin]; [contradiction|].
      apply (Hseen x); simpl; auto.
Qed.

Lemma onBoard_true (r c : Z) :
  onBoard r c = true <-> 0 <= r < 8 /\ 0 <= c < 8.
Proof. unfold onBoard. rewrite !andb_true_iff. lia. Qed.

(** Row and column of a square of the board. *)
Lemma square_row_col (sq : Z) :
  0 <= sq <= 63 ->
  0 <= sq / 8 < 8 /\ 0 <= Z.rem sq 8 < 8 /\ sq = sq / 8 * 8 + Z.rem sq 8.
Proof.
  intros H. rewrite Z.rem_mod_nonneg by lia.
  pose proof (Z.mod_pos_bound sq 8 ltac:(lia)).
  pose proof (Z.div_mod sq 8 ltac:(lia)).
  assert (0 <= sq / 8) by (apply Z.div_pos; lia).
  assert (sq / 8 < 8) by (apply Z.div_lt_upper_bound; lia).
  lia.
Qed.

Ltac in_list H :=
  repeat (destruct H as [H|H]; [first [injection H as ? ?; subst | subst]|]);
  try contradiction.

(** ** The sliding loop *)

Section Slide.
Variable blockers : list Z.
Variables dr dc : Z.

Lemma in_slide (fuel : nat) (r c x : Z) :
  In x (ChessLogic.slide fuel blockers dr dc r c) <->
  exists j : nat,
    (j < fuel)%nat /\ x = iterSquare dr dc r c j /\
    (forall i : nat, (i <= j)%nat ->
       onBoard (r + Z.of_nat i * dr) (c + Z.of_nat i * dc) = true) /\
    (forall i : nat, (i < j)%nat -> includes blockers (iterSquare dr dc r c i) = false).
Proof.
  revert r c. induction fuel as [|fuel IH]; intros r c; simpl.
  - split; [tauto | intros [j [Hj _]]; lia].
  - destruct (onBoard r c) eqn:Hb.
    + assert (Hshift : forall i : nat,
                 r + dr + Z.of_nat i * dr = r + Z.of_nat (S i) * dr /\
                 c + dc + Z.of_nat i * dc = c + Z.of_nat (S i) * dc) by (intros; lia).
      assert (Hsq : forall i, iterSquare dr dc (r + dr) (c + dc) i = iterSquare dr dc r c (S i)).
      { intros i. unfold iterSquare. destruct (Hshift i) as [-> ->]. reflexivity. }
      assert (H0 : iterSquare dr dc r c 0 = r * 8 + c) by (unfold iterSquare; simpl; lia).
      destruct (includes blockers (r * 8 + c)) eqn:Hi.
      * simpl. split.
        -- intros [<-|[]]. exists 0%nat. repeat split; try lia.
           ++ intros i Hle. replace i with 0%nat by lia. simpl.
              now rewrite !Z.add_0_r.
        -- intros [j [Hj [-> [_ Hnb]]]]. destruct j as [|j]; [left; lia|].
           specialize (Hnb 0%nat ltac:(lia)). rewrite H0 in Hnb. congruence.
      * simpl. rewrite IH. split.
        -- intros [<-|[j [Hj [-> [Hon Hnb]]]]].
           ++ exists 0%nat. repeat split; try lia.
              intros i Hle. replace i with 0%nat by lia. simpl.
              now rewrite !Z.add_0_r.
           ++ exists (S j). repeat split; try lia.
              ** apply Hsq.
              ** intros [|i] Hle; [simpl; now rewrite !Z.add_0_r|].
                 destruct (Hshift i) as [<- <-]. apply Hon. lia.
              ** intros [|i] Hlt; [now rewrite H0|].
                 rewrite <- Hsq. apply Hnb. lia.
        -- intros [[|j] [Hj [-> [Hon Hnb]]]]; [left; lia|].
           right. exists j. repeat split; try lia.
           ++ symmetry. apply Hsq.
           ++ intros i Hle. destruct (Hshift i) as [-> ->]. apply Hon. lia.
           ++ intros i Hlt. rewrite Hsq. apply Hnb. lia.
    + split; [intros []|]. intros [j [_ [_ [Hon _]]]].
      specialize (Hon 0%nat ltac:(lia)). simpl in Hon.
      rewrite !Z.add_0_r in Hon. congruence.
Qed.

End Slide.

Lemma room_step (dr dc r c : Z) :
  In (dr, dc) ChessLogic.queenDirections ->
  onBoard r c = true ->
  1 <= room dr dc r c <= 8 /\ room dr dc (r + dr) (c + dc) = room dr dc r c - 1.
Proof.
  intros Hd Hb. apply onBoard_true in Hb. unfold room.
  unfold ChessLogic.queenDirections in Hd.
  in_list Hd;
    repeat match goal with |- context [?a =? ?b] => destruct (Z.eqb_spec a b) end; lia.
Qed.

(** The loop has stopped by itself once the fuel covers [room]. *)
Lemma slide_fuel_enough (blockers : list Z) (dr dc : Z) (fuel fuel' : nat) (r c : Z) :
  In (dr, dc) ChessLogic.queenDirections ->
  (onBoard r c = true -> room dr dc r c <= Z.of_nat fuel) ->
  (fuel <= fuel')%nat ->
  ChessLogic.slide fuel' blockers dr dc r c = ChessLogic.slide fuel blockers dr dc r c.
Proof.
  intros Hd. revert fuel' r c.
  induction fuel as [|fuel IH]; intros fuel' r c Hroom Hle.
  - destruct fuel' as [|fuel']; [reflexivity|]. simpl.
    destruct (onBoard r c) eqn:Hb; [|reflexivity].
    destruct (room_step dr dc r c Hd Hb). specialize (Hroom eq_refl). lia.
  - destruct fuel' as [|fuel']; [lia|]. simpl.
    destruct (onBoard r c) eqn:Hb; [|reflexivity].
    destruct (includes blockers (r * 8 + c)); [reflexivity|].
    f_equal. apply IH; [|lia].
    intros _. destruct (room_step dr dc r c Hd Hb) as [_ ->].
    specialize (Hroom eq_refl). lia.
Qed.

(** Eight iterations are all the [while] loop can ever make, from any start:
    the fuel of the embedding never cuts the loop short. *)
Lemma slide_fuel_irrelevant (blockers : list Z) (dr dc : Z) (fuel : nat) (r c : Z) :
  In (dr, dc) ChessLogic.queenDirections ->
  (slideFuel <= fuel)%nat ->
  ChessLogic.slide fuel blockers dr dc r c =
  ChessLogic.slide slideFuel blockers dr dc r c.
Proof.
  intros Hd Hle. apply slide_fuel_enough; [assumption| |assumption].
  intros Hb. destruct (room_step dr dc r c Hd Hb). unfold slideFuel. lia.
Qed.

(** ** What the move generator returns *)

Lemma encode_inj (r c r' c' : Z) :
  0 <= c < 8 -> 0 <= c' < 8 -> r * 8 + c = r' * 8 + c' -> r = r' /\ c = c'.
Proof. lia. Qed.

Lemma in_addSlidingMoves (row col : Z) (blockers : list Z)
      (directions : list (Z * Z)) (x : Z) :
  In x (ChessLogic.addSlidingMoves row col blockers directions) <->
  exists dr dc, In (dr, dc) directions /\
    In x (ChessLogic.slide slideFuel blockers dr dc (row + dr) (col + dc)).
Proof.
  unfold ChessLogic.addSlidingMoves. rewrite in_flat_map. split.
  - intros [[dr dc] [Hd Hx]]. now exists dr, dc.
  - intros [dr [dc [Hd Hx]]]. now exists (dr, dc).
Qed.

Lemma in_stepMoves (row col : Z) (offsets : list (Z * Z)) (x : Z) :
  In x (ChessLogic.stepMoves row col offsets) <->
  exists dr dc, In (dr, dc) offsets /\
    onBoard (row + dr) (col + dc) = true /\ x = (row + dr) * 8 + (col + dc).
Proof.
  unfold ChessLogic.stepMoves, ChessLogic.addIfOnBoard. rewrite in_flat_map. split.
  - intros [[dr dc] [Hd Hx]]. simpl in Hx. exists dr, dc.
    destruct (onBoard (row + dr) (col + dc)); simpl in Hx; [|contradiction].
    destruct Hx as [<-|[]]. auto.
  - intros [dr [dc [Hd [Hb ->]]]]. exists (dr, dc). simpl.
    rewrite Hb. simpl. auto.
Qed.

Lemma rawMoves_sliding (square : Z) (type : PieceType) (blockers : list Z) (d : Z * Z) :
  In d (Spec.directionsOf type) ->
  ChessLogic.rawMoves square type blockers =
  ChessLogic.addSlidingMoves (square / 8) (Z.rem square 8) blockers
                             (Spec.directionsOf type).
Proof. destruct type; simpl; intros H; try contradiction; reflexivity. Qed.

Lemma directionsOf_queen (type : PieceType) (d : Z * Z) :
  In d (Spec.directionsOf type) -> In d ChessLogic.queenDirections.
Proof.
  destruct type; simpl; try tauto; intros H; in_list H; simpl; tauto.
Qed.

(** Every raw move is the code of an on-board cell other than the cell the
    piece stands on; this needs nothing of [square]. *)
Lemma rawMoves_cell (square : Z) (type : PieceType) (blockers : list Z) (x : Z) :
  In x (ChessLogic.rawMoves square type blockers) ->
  exists r c, onBoard r c = true /\ x = r * 8 + c /\
              (r <> square / 8 \/ c <> Z.rem square 8).
Proof.
  assert (Hslide : forall dirs,
             incl dirs ChessLogic.queenDirections ->
             In x (ChessLogic.addSlidingMoves (square / 8) (Z.rem square 8) blockers dirs) ->
             exists r c, onBoard r c = true /\ x = r * 8 + c /\
                         (r <> square / 8 \/ c <> Z.rem square 8)).
  { intros dirs Hincl Hx. apply in_addSlidingMoves in Hx.
    destruct Hx as [dr [dc [Hd Hx]]]. apply in_slide in Hx.
    destruct Hx as [j [_ [-> [Hon _]]]].
    specialize (Hon j (Nat.le_refl j)).
    eexists _, _. split; [exact Hon|]. split; [reflexivity|].
    apply Hincl in Hd. unfold ChessLogic.queenDirections in Hd.
    in_list Hd; lia. }
  assert (Hstep : forall offs,
             (forall dr dc, In (dr, dc) offs -> dr <> 0 \/ dc <> 0) ->
             In x (ChessLogic.stepMoves (square / 8) (Z.rem square 8) offs) ->
             exists r c, onBoard r c = true /\ x = r * 8 + c /\
                         (r <> square / 8 \/ c <> Z.rem square 8)).
  { intros offs Hnz Hx. apply in_stepMoves in Hx.
    destruct Hx as [dr [dc [Hd [Hb ->]]]].
    eexists _, _. split; [exact Hb|]. split; [reflexivity|].
    specialize (Hnz _ _ Hd). lia. }
  unfold ChessLogic.rawMoves. destruct type; intros Hx.
  - apply (Hslide _ (incl_refl _) Hx).
  - apply (Hslide ChessLogic.rookDirections); [|exact Hx].
    intros d Hd. unfold ChessLogic.rookDirections in Hd. in_list Hd; simpl; tauto.
  - apply (Hslide ChessLogic.bishopDirections); [|exact Hx].
    intros d Hd. unfold ChessLogic.bishopDirections in Hd. in_list Hd; simpl; tauto.
  - apply (Hstep ChessLogic.knightOffsets); [|exact Hx].
    intros dr dc Hd. unfold ChessLogic.knightOffsets in Hd. in_list Hd; lia.
  - apply (Hstep ChessLogic.kingOffsets); [|exact Hx].
    intros dr dc Hd. vm_compute in Hd. in_list Hd; lia.
  - contradiction.
Qed.

Lemma getLegalMoves_cell (square : Z) (type : PieceType) (blockers : list Z) (x : Z) :
  In x (ChessLogic.getLegalMoves square type blockers) ->
  exists r c, onBoard r c = true /\ x = r * 8 + c /\
              (r <> square / 8 \/ c <> Z.rem square 8).
Proof.
  unfold ChessLogic.getLegalMoves. rewrite setOf_In. intros [Hx _].
  eapply rawMoves_cell; eassumption.
Qed.

Lemma getLegalMoves_range (square : Z) (type : PieceType) (blockers : list Z) (x : Z) :
  In x (ChessLogic.getLegalMoves square type blockers) -> 0 <= x <= 63.
Proof.
  intros Hx. apply getLegalMoves_cell in Hx.
  destruct Hx as [r [c [Hb [-> _]]]]. apply onBoard_true in Hb. lia.
Qed.

(** C8.  For a square of the board, any piece kind and any blockers, every
    square returned by [getLegalMoves] differs from the input square and lies
    in [0,63], and the returned list has no duplicates. *)
Theorem getLegalMoves_safe (square : Z) (type : PieceType) (blockers : list Z) :
  0 <= square <= 63 ->
  (forall x, In x (ChessLogic.getLegalMoves square type blockers) ->
             x <> square /\ 0 <= x <= 63) /\
  NoDup (ChessLogic.getLegalMoves square type blockers).
Proof.
  intros Hsq. split; [|apply setOf_NoDup].
  intros x Hx. split; [|eapply getLegalMoves_range; eassumption].
  apply getLegalMoves_cell in Hx.
  destruct Hx as [r [c [Hb [-> Hne]]]]. apply onBoard_true in Hb.
  destruct (square_row_col square Hsq) as [Hr [Hc Heq]].
  intros Habs. rewrite Heq in Habs at 1.
  apply encode_inj in Habs; lia.
Qed.

Lemma getLegalMoves_safe_witness :
  (forall x, In x (ChessLogic.getLegalMoves 27 QUEEN [19; 29]) ->
             x <> 27 /\ 0 <= x <= 63) /\
  NoDup (ChessLogic.getLegalMoves 27 QUEEN [19; 29]).
Proof. apply (getLegalMoves_safe 27 QUEEN [19; 29]). lia. Defined.

(** The iterations of the loop for direction [(dr, dc)] are the steps
    [1, 2, ...] from the square. *)
Lemma iterSquare_step (square dr dc : Z) (j : nat) :
  iterSquare dr dc (square / 8 + dr) (Z.rem square 8 + dc) j =
  Spec.stepSquare square dr dc (Z.of_nat j + 1).
Proof. unfold iterSquare, Spec.stepSquare, Spec.stepRow, Spec.stepCol. lia. Qed.

(** C2.  From a square of the board, for a sliding kind and one of its
    directions, the on-board square [k] steps away is returned by
    [getLegalMoves] exactly when none of the squares at steps [1 .. k-1] is a
    blocker: the ray is included up to and including its first blocker, and
    nothing beyond that blocker is. *)
Theorem sliding_stops_at_first_blocker
        (square : Z) (type : PieceType) (blockers : list Z) (dr dc k : Z) :
  0 <= square <= 63 ->
  In (dr, dc) (Spec.directionsOf type) ->
  1 <= k ->
  Spec.stepOnBoard square dr dc k ->
  (In (Spec.stepSquare square dr dc k)
      (ChessLogic.getLegalMoves square type blockers) <->
   forall j, 1 <= j < k -> ~ In (Spec.stepSquare square dr dc j) blockers).
Proof.
  intros Hsq Hd Hk Hon.
  destruct (square_row_col square Hsq) as [Hr [Hc _]].
  unfold ChessLogic.getLegalMoves.
  rewrite setOf_In, (rawMoves_sliding _ _ _ _ Hd), in_addSlidingMoves.
  unfold Spec.stepOnBoard, Spec.stepRow, Spec.stepCol in Hon.
  split.
  - intros [[dr' [dc' [Hd' Hx]]] _] j Hj Hblock.
    apply in_slide in Hx. destruct Hx as [i [_ [Heq [Hbi Hnb]]]].
    rewrite iterSquare_step in Heq.
    specialize (Hbi i (Nat.le_refl i)). apply onBoard_true in Hbi.
    unfold Spec.stepSquare, Spec.stepRow, Spec.stepCol in Heq.
    apply encode_inj in Heq; [|lia|lia].
    assert (Hsame : dr' = dr /\ dc' = dc /\ k = Z.of_nat i + 1).
    { apply directionsOf_queen in Hd, Hd'.
      unfold ChessLogic.queenDirections in Hd, Hd'.
      in_list Hd; in_list Hd'; lia. }
    destruct Hsame as [-> [-> ->]].
    specialize (Hnb (Z.to_nat (j - 1)) ltac:(lia)).
    rewrite iterSquare_step in Hnb.
    replace (Z.of_nat (Z.to_nat (j - 1)) + 1) with j in Hnb by lia.
    apply includes_In in Hblock. congruence.
  - intros Hfree. split; [|intros []].
    exists dr, dc. split; [assumption|].
    apply in_slide. exists (Z.to_nat (k - 1)).
    assert (Hdq := directionsOf_queen _ _ Hd).
    unfold ChessLogic.queenDirections in Hdq.
    split; [|split; [|split]].
    + unfold slideFuel. in_list Hdq; lia.
    + rewrite iterSquare_step. f_equal. lia.
    + intros i Hi. apply onBoard_true. in_list Hdq; lia.
    + intros i Hi. rewrite iterSquare_step.
      destruct (includes blockers _) eqn:E; [|reflexivity].
      apply includes_In in E. exfalso. revert E. apply Hfree. lia.
Qed.

Lemma sliding_stops_at_first_blocker_witness :
  In (Spec.stepSquare 0 0 1 3) (ChessLogic.getLegalMoves 0 ROOK [3; 16]) <->
  forall j, 1 <= j < 3 -> ~ In (Spec.stepSquare 0 0 1 j) [3; 16].
Proof.
  apply (sliding_stops_at_first_blocker 0 ROOK [3; 16] 0 1 3).
  - lia.
  - simpl. tauto.
  - lia.
  - unfold Spec.stepOnBoard, Spec.stepRow, Spec.stepCol. simpl. lia.
Defined.

(** ** The two copies of the move generator *)

Lemma slide_copies_agree (fuel : nat) (blockers : list Z) (dr dc r c : Z) :
  MoveLogic.slide fuel blockers dr dc r c = ChessLogic.slide fuel blockers dr dc r c.
Proof.
  revert r c. induction fuel as [|fuel IH]; intros r c; simpl; [reflexivity|].
  destruct (onBoard r c); [|reflexivity].
  destruct (includes blockers (r * 8 + c)); [reflexivity|].
  now rewrite IH.
Qed.

Lemma addSlidingMoves_copies_agree (row col : Z) (blockers : list Z)
      (directions : list (Z * Z)) :
  MoveLogic.addSlidingMoves row col blockers directions =
  ChessLogic.addSlidingMoves row col blockers directions.
Proof.
  unfold MoveLogic.addSlidingMoves, ChessLogic.addSlidingMoves.
  apply flat_map_ext. intros [dr dc]. cbn [fst snd]. apply slide_copies_agree.
Qed.

(** C10.  The two copies of [getLegalMoves] return the same list on every
    square, piece kind and blockers list. *)
Theorem getLegalMoves_copies_agree (square : Z) (type : PieceType) (blockers : list Z) :
  MoveLogic.getLegalMoves square type blockers =
  ChessLogic.getLegalMoves square type blockers.
Proof.
  unfold MoveLogic.getLegalMoves, ChessLogic.getLegalMoves, ChessLogic.rawMoves.
  f_equal. destruct type.
  - apply addSlidingMoves_copies_agree.
  - apply addSlidingMoves_copies_agree.
  - apply addSlidingMoves_copies_agree.
  - unfold ChessLogic.stepMoves. apply flat_map_ext. intros [dr dc]. reflexivity.
  - unfold MoveLogic.kingMoves, ChessLogic.stepMoves, ChessLogic.kingOffsets.
    cbn [flat_map map filter app fst snd Z.eqb andb negb].
    unfold MoveLogic.addIfOnBoard, ChessLogic.addIfOnBoard.
    rewrite !app_nil_r, <- !app_assoc. reflexivity.
  - reflexivity.
Qed.

(** ** The move history *)

Lemma updateHistory_mostRecent (history : list string) (pid : string) :
  (List.length history <= 5)%nat ->
  App.updateHistory history pid = Spec.mostRecent 5 (history ++ [pid]).
Proof.
  intros Hlen. unfold App.updateHistory, Spec.mostRecent.
  rewrite length_app. simpl List.length.
  destruct (5 <? List.length history + 1)%nat eqn:E.
  - apply Nat.ltb_lt in E.
    replace (List.length history + 1 - 5)%nat with 1%nat by lia.
    destruct (history ++ [pid]); reflexivity.
  - apply Nat.ltb_ge in E.
    replace (List.length history + 1 - 5)%nat with 0%nat by lia.
    reflexivity.
Qed.

Lemma mostRecent_length {A : Type} (n : nat) (l : list A) :
  List.length (Spec.mostRecent n l) = Nat.min n (List.length l).
Proof. unfold Spec.mostRecent. rewrite length_skipn. lia. Qed.

Lemma mostRecent_snoc {A : Type} (n : nat) (l : list A) (x : A) :
  Spec.mostRecent (S n) (Spec.mostRecent (S n) l ++ [x]) =
  Spec.mostRecent (S n) (l ++ [x]).
Proof.
  unfold Spec.mostRecent.
  rewrite !length_app, length_skipn. simpl List.length.
  assert (Happ : skipn (List.length l - S n) l ++ [x] =
                 skipn (List.length l - S n) (l ++ [x])).
  { rewrite skipn_app.
    replace (List.length l - S n - List.length l)%nat with 0%nat by lia.
    reflexivity. }
  rewrite Happ, skipn_skipn. f_equal. lia.
Qed.

Lemma historyAfter_mostRecent (moved : list string) :
  App.historyAfter moved = Spec.mostRecent 5 moved.
Proof.
  unfold App.historyAfter.
  induction moved as [|x moved IH] using rev_ind; [reflexivity|].
  rewrite fold_left_app. simpl. rewrite IH.
  rewrite updateHistory_mostRecent.
  - apply mostRecent_snoc.
  - rewrite mostRecent_length. lia.
Qed.

(** C9.  On a history of at most 5 entries the update step yields at most 5
    entries, namely the 5 most recent ids of the history extended by the moved
    piece, in order; and after 6 or more accepted moves the history is exactly
    the 5 most recent moved-piece ids, in order. *)
Theorem history_holds_five_most_recent
        (history : list string) (pid : string) (moved : list string) :
  (List.length history <= 5)%nat ->
  (List.length (App.updateHistory history pid) <= 5)%nat /\
  App.updateHistory history pid = Spec.mostRecent 5 (history ++ [pid]) /\
  ((6 <= List.length moved)%nat ->
   App.historyAfter moved = Spec.mostRecent 5 moved /\
   List.length (App.historyAfter moved) = 5%nat).
Proof.
  intros Hlen. rewrite updateHistory_mostRecent by assumption.
  split; [rewrite mostRecent_length; lia|]. split; [reflexivity|].
  intros Hmoved. rewrite historyAfter_mostRecent, mostRecent_length.
  split; [reflexivity | lia].
Qed.

Lemma history_holds_five_most_recent_witness :
  (List.length (App.updateHistory Boards.fullHistory "p-3") <= 5)%nat /\
  App.updateHistory Boards.fullHistory "p-3" =
    Spec.mostRecent 5 (Boards.fullHistory ++ ["p-3"%string]) /\
  ((6 <= List.length Boards.sevenMoves)%nat ->
   App.historyAfter Boards.sevenMoves = Spec.mostRecent 5 Boards.sevenMoves /\
   List.length (App.historyAfter Boards.sevenMoves) = 5%nat).
Proof.
  apply (history_holds_five_most_recent Boards.fullHistory "p-3" Boards.sevenMoves).
  simpl. lia.
Defined.

Example historyAfter_seven :
  App.historyAfter ["a"; "b"; "c"; "d"; "e"; "f"; "g"]%string =
  ["c"; "d"; "e"; "f"; "g"]%string.
Proof. reflexivity. Qed.

(** ** Insertion-ordered maps *)

Section JsMapFacts.
Context {K V : Type} (eqb : K -> K -> bool).
Hypothesis eqb_eq : forall a b, eqb a b = true <-> a = b.

Lemma eqb_same (a : K) : eqb a a = true.
Proof. now apply eqb_eq. Qed.

Lemma eqb_differ (a b : K) : a <> b -> eqb a b = false.
Proof.
  intros Hne. destruct (eqb a b) eqn:E; [|reflexivity].
  apply eqb_eq in E. contradiction.
Qed.

Lemma mget_mset_same (k : K) (v : V) (m : list (K * V)) :
  mget eqb k (mset eqb k v m) = Some v.
Proof.
  induction m as [|[k' v'] m IH]; simpl.
  - now rewrite eqb_same.
  - destruct (eqb k k') eqn:E; simpl.
    + now rewrite eqb_same.
    + now rewrite E.
Qed.

Lemma mget_mset_other (k k0 : K) (v : V) (m : list (K * V)) :
  k0 <> k -> mget eqb k0 (mset eqb k v m) = mget eqb k0 m.
Proof.
  intros Hne. induction m as [|[k' v'] m IH]; simpl.
  - now rewrite eqb_differ.
  - destruct (eqb k k') eqn:E; simpl.
    + apply eqb_eq in E. subst k'. now rewrite eqb_differ.
    + now rewrite IH.
Qed.

Lemma mget_Some_In (k : K) (v : V) (m : list (K * V)) :
  mget eqb k m = Some v -> In (k, v) m.
Proof.
  induction m as [|[k' v'] m IH]; simpl; [discriminate|].
  destruct (eqb k k') eqn:E.
  - apply eqb_eq in E. intros [= ->]. subst. now left.
  - intros H. right. auto.
Qed.

Lemma mget_None (k : K) (m : list (K * V)) :
  mget eqb k m = None <-> ~ In k (map fst m).
Proof.
  induction m as [|[k' v'] m IH]; simpl; [tauto|].
  destruct (eqb k k') eqn:E.
  - apply eqb_eq in E. subst. split; [discriminate | tauto].
  - rewrite IH. split; [|tauto].
    intros Hn [->|H]; [|tauto]. rewrite eqb_same in E. discriminate.
Qed.

(** Keys after [set]: the old keys, then the new key if it was absent. *)
Lemma mset_keys (k : K) (v : V) (m : list (K * V)) :
  map fst (mset eqb k v m) =
  match mget eqb k m with
  | Some _ => map fst m
  | None => map fst m ++ [k]
  end.
Proof.
  induction m as [|[k' v'] m IH]; simpl; [reflexivity|].
  destruct (eqb k k') eqn:E; simpl.
  - apply eqb_eq in E. now subst.
  - rewrite IH. now destruct (mget eqb k m).
Qed.

Lemma mset_In (k : K) (v : V) (m : list (K * V)) (e : K * V) :
  In e (mset eqb k v m) -> e = (k, v) \/ In e m.
Proof.
  induction m as [|[k' v'] m IH]; simpl.
  - intros [<-|[]]. now left.
  - destruct (eqb k k'); simpl.
    + intros [<-|H]; auto.
    + intros [<-|H]; auto. destruct (IH H); auto.
Qed.

(** Appending fresh keys one by one builds the list itself. *)
Lemma mset_fresh (k : K) (v : V) (m : list (K * V)) :
  ~ In k (map fst m) -> mset eqb k v m = m ++ [(k, v)].
Proof.
  induction m as [|[k' v'] m IH]; simpl; intros Hn; [reflexivity|].
  rewrite eqb_differ by (intros ->; tauto).
  rewrite IH by tauto. reflexivity.
Qed.

Lemma mset_NoDup_keys (k : K) (v : V) (m : list (K * V)) :
  NoDup (map fst m) -> NoDup (map fst (mset eqb k v m)).
Proof.
  intros Hnd. rewrite mset_keys. destruct (mget eqb k m) eqn:E; [assumption|].
  apply mget_None in E.
  apply NoDup_rev in Hnd. rewrite <- (rev_involutive (_ ++ _)).
  apply NoDup_rev. rewrite rev_app_distr. simpl.
  constructor; [|assumption]. now rewrite <- in_rev.
Qed.
End JsMapFacts.

(** ** Piece weights *)

Lemma nth_error_last_entry (history : list string) :
  nth_error history (List.length history - 1) = hd_error (rev history).
Proof.
  destruct history as [|x history] using rev_ind; [reflexivity|].
  rewrite rev_app_distr, length_app. simpl.
  replace (List.length history + 1 - 1)%nat with (List.length history) by lia.
  rewrite nth_error_app2 by lia. now rewrite Nat.sub_diag.
Qed.

Lemma nth_error_before_last (history : list string) :
  (2 <= List.length history)%nat ->
  nth_error history (List.length history - 2) = nth_error (rev history) 1.
Proof.
  destruct history as [|x history _] using rev_ind; [simpl; lia|].
  destruct history as [|y history _] using rev_ind; [simpl; lia|].
  intros _. rewrite !rev_app_distr, !length_app. simpl.
  replace (List.length history + 1 + 1 - 2)%nat with (List.length history) by lia.
  rewrite <- app_assoc. rewrite nth_error_app2 by lia. now rewrite Nat.sub_diag.
Qed.

Lemma historyCount_penalty (history : list string) (pid : string) :
  (inject_Z (Z.of_nat (List.length (filter (fun i => String.eqb i pid) history)))
   * (3 # 10) == Spec.repetitionPenalty pid history)%Q.
Proof.
  induction history as [|i history IH]; simpl.
  - reflexivity.
  - destruct (String.eqb i pid); [|exact IH].
    rewrite <- IH. cbn [List.length].
    rewrite Nat2Z.inj_succ, <- Z.add_1_r, inject_Z_plus. ring.
Qed.

Lemma isLast_code (history : list string) (pid : string) :
  ((0 <? List.length history)%nat &&
   match nth_error history (List.length history - 1) with
   | Some i => String.eqb i pid
   | None => false
   end) = Spec.isLast pid history.
Proof.
  rewrite nth_error_last_entry. unfold Spec.isLast.
  rewrite <- (length_rev history).
  destruct (rev history); reflexivity.
Qed.

Lemma isLastTwo_code (history : list string) (pid : string) :
  ((2 <=? List.length history)%nat &&
   match nth_error history (List.length history - 1) with
   | Some i => String.eqb i pid
   | None => false
   end &&
   match nth_error history (List.length history - 2) with
   | Some i => String.eqb i pid
   | None => false
   end) = Spec.isLastTwo pid history.
Proof.
  unfold Spec.isLastTwo.
  destruct (2 <=? List.length history)%nat eqn:E.
  - apply Nat.leb_le in E.
    rewrite nth_error_last_entry, nth_error_before_last by assumption.
    rewrite <- (length_rev history) in E.
    destruct (rev history) as [|a [|b l]]; simpl in *; try lia. reflexivity.
  - apply Nat.leb_gt in E. rewrite <- (length_rev history) in E.
    destruct (rev history) as [|a [|b l]]; simpl in *; try lia; reflexivity.
Qed.

Lemma clamp_max (w w' : Q) : (w == w')%Q -> (ChessLogic.clamp w == Qmax 0 w')%Q.
Proof.
  intros Heq. unfold ChessLogic.clamp, Qltb.
  destruct (Qle_bool w 0) eqn:E; simpl.
  - apply Qle_bool_iff in E. rewrite Heq in E.
    symmetry. apply Q.max_l. exact E.
  - assert (Hlt : (0 < w')%Q).
    { rewrite <- Heq. apply Qnot_le_lt. intros H.
      apply Qle_bool_iff in H. congruence. }
    rewrite Heq. symmetry. apply Q.max_r. now apply Qlt_le_weak.
Qed.

(** The weight computed by the code is the weight the specification words. *)
Lemma pieceWeight_spec (history : list string) (pid : string) :
  (ChessLogic.pieceWeight history pid == Spec.weight pid history)%Q.
Proof.
  unfold ChessLogic.pieceWeight, Spec.weight. apply clamp_max.
  unfold ChessLogic.rawWeight. cbv zeta.
  rewrite isLast_code, isLastTwo_code.
  destruct (Spec.isLastTwo pid history); [reflexivity|].
  destruct (Spec.isLast pid history); rewrite historyCount_penalty; reflexivity.
Qed.

Lemma pieceWeightsOf_get (history : list string) (pieces : list Piece) (p : Piece) :
  In p pieces ->
  mget String.eqb (id p) (ChessLogic.pieceWeightsOf pieces history) =
  Some (ChessLogic.pieceWeight history (id p)).
Proof.
  unfold ChessLogic.pieceWeightsOf. generalize (@nil (string * Q)).
  induction pieces as [|q pieces IH] using rev_ind; intros m Hin; [contradiction|].
  rewrite fold_left_app. simpl.
  destruct (String.eqb_spec (id p) (id q)) as [Heq|Hne].
  - rewrite <- Heq. apply (mget_mset_same _ String.eqb_eq).
  - rewrite (mget_mset_other _ String.eqb_eq) by assumption.
    apply IH. apply in_app_or in Hin. destruct Hin as [H|[->|[]]]; tauto.
Qed.

(** ** Step 1 of the selector: reachability *)

Lemma validMovesOf_NoDup (pieces : list Piece) (p : Piece) :
  NoDup (ChessLogic.validMovesOf pieces p).
Proof. apply NoDup_filter, setOf_NoDup. Qed.

Lemma validMovesOf_range (pieces : list Piece) (p : Piece) (m : Z) :
  In m (ChessLogic.validMovesOf pieces p) -> 0 <= m <= 63.
Proof.
  unfold ChessLogic.validMovesOf. rewrite filter_In. intros [H _].
  eapply getLegalMoves_range; eassumption.
Qed.

(** A valid move is an empty square. *)
Lemma validMovesOf_empty_square (pieces : list Piece) (p q : Piece) (m : Z) :
  In m (ChessLogic.validMovesOf pieces p) -> In q pieces -> square q <> m.
Proof.
  unfold ChessLogic.validMovesOf. rewrite filter_In. intros [_ Hocc] Hq Heq.
  apply negb_true_iff in Hocc.
  assert (Hex : existsb (fun occupied => square occupied =? m) pieces = true).
  { apply existsb_exists. exists q. split; [assumption | now apply Z.eqb_eq]. }
  congruence.
Qed.

Section NoteMoves.
Variable pid : string.

(** Effect of [validMoves.forEach] on the three maps. *)
Lemma noteMove_fold (validMoves : list Z) (st : ChessLogic.Reach) (s : Z) :
  NoDup validMoves ->
  let st' := fold_left (ChessLogic.noteMove pid) validMoves st in
  ChessLogic.pieceMoves st' = ChessLogic.pieceMoves st /\
  mget Z.eqb s (ChessLogic.squareReachCounts st') =
    (if includes validMoves s
     then Some (orZero (mget Z.eqb s (ChessLogic.squareReachCounts st)) + 1)
     else mget Z.eqb s (ChessLogic.squareReachCounts st)) /\
  mget Z.eqb s (ChessLogic.squareReacher st') =
    (if includes validMoves s &&
        (orZero (mget Z.eqb s (ChessLogic.squareReachCounts st)) =? 0)
     then Some pid
     else mget Z.eqb s (ChessLogic.squareReacher st)) /\
  (NoDup (map fst (ChessLogic.squareReachCounts st)) ->
   NoDup (map fst (ChessLogic.squareReachCounts st'))).
Proof.
  revert st. induction validMoves as [|m rest IH]; intros st Hnd; cbv zeta.
  - simpl. auto.
  - inversion Hnd as [|? ? Hm Hrest]; subst. simpl fold_left.
    destruct (IH (ChessLogic.noteMove pid st m) Hrest) as [Hmoves [Hcnt [Hrch Hkeys]]].
    cbv zeta in Hmoves, Hcnt, Hrch, Hkeys.
    rewrite Hmoves, Hcnt, Hrch. clear Hmoves Hcnt Hrch IH.
    split; [reflexivity|].
    unfold includes. cbn [existsb].
    fold (includes rest s).
    destruct (Z.eqb_spec s m) as [->|Hne].
    + assert (Hnot : includes rest m = false).
      { destruct (includes rest m) eqn:E; [|reflexivity].
        apply includes_In in E. contradiction. }
      rewrite Hnot. cbn [orb andb].
      unfold ChessLogic.noteMove. cbn [ChessLogic.squareReachCounts ChessLogic.squareReacher].
      rewrite (mget_mset_same _ Z.eqb_eq).
      split; [reflexivity|]. split.
      * destruct (orZero (mget Z.eqb m (ChessLogic.squareReachCounts st)) =? 0);
          [apply (mget_mset_same _ Z.eqb_eq) | reflexivity].
      * intros H. apply Hkeys. now apply mset_NoDup_keys; [apply Z.eqb_eq|].
    + cbn [orb].
      unfold ChessLogic.noteMove. cbn [ChessLogic.squareReachCounts ChessLogic.squareReacher].
      rewrite (mget_mset_other _ Z.eqb_eq) by assumption.
      split; [reflexivity|]. split.
      * destruct (orZero (mget Z.eqb m (ChessLogic.squareReachCounts st)) =? 0);
          [rewrite (mget_mset_other _ Z.eqb_eq) by assumption|]; reflexivity.
      * intros H. apply Hkeys. now apply mset_NoDup_keys; [apply Z.eqb_eq|].
Qed.
End NoteMoves.

Lemma orZero_storedCount (l : list Piece) :
  orZero (storedCount l) = Z.of_nat (List.length l).
Proof. destruct l; reflexivity. Qed.

Lemma storedCount_snoc (l : list Piece) (p : Piece) :
  storedCount (l ++ [p]) = Some (Z.of_nat (List.length l) + 1).
Proof.
  unfold storedCount. destruct (l ++ [p]) eqn:E.
  - destruct l; discriminate.
  - rewrite <- E, length_app. simpl. f_equal. lia.
Qed.

Lemma reachers_snoc (pieces among : list Piece) (p : Piece) (s : Z) :
  Spec.reachers pieces (among ++ [p]) s =
  Spec.reachers pieces among s ++
  (if includes (ChessLogic.validMovesOf pieces p) s then [p] else []).
Proof. unfold Spec.reachers. rewrite filter_app. reflexivity. Qed.

(** The three maps after the first [pieces.forEach] has visited [among]. *)
Lemma reach_fold (pieces among : list Piece) :
  let st := fold_left (ChessLogic.visitPiece pieces) among ChessLogic.emptyReach in
  (forall s, mget Z.eqb s (ChessLogic.squareReachCounts st) =
             storedCount (Spec.reachers pieces among s)) /\
  (forall s, mget Z.eqb s (ChessLogic.squareReacher st) =
             option_map id (hd_error (Spec.reachers pieces among s))) /\
  NoDup (map fst (ChessLogic.squareReachCounts st)) /\
  (forall e, In e (ChessLogic.pieceMoves st) ->
             exists p, In p among /\ e = (id p, ChessLogic.validMovesOf pieces p)) /\
  (NoDup (map id among) ->
   ChessLogic.pieceMoves st =
   map (fun p => (id p, ChessLogic.validMovesOf pieces p)) among).
Proof.
  induction among as [|p among IH] using rev_ind; cbv zeta.
  - simpl. repeat split; auto using NoDup_nil. intros e [].
  - cbv zeta in IH. rewrite fold_left_app. cbn [fold_left].
    set (st := fold_left (ChessLogic.visitPiece pieces) among ChessLogic.emptyReach) in *.
    destruct IH as [Hcnt [Hrch [Hkeys [Hmv Hmvs]]]].
    unfold ChessLogic.visitPiece.
    set (vm := ChessLogic.validMovesOf pieces p).
    set (st1 := ChessLogic.mkReach _ _ _).
    assert (Hfold := fun s => noteMove_fold (id p) vm st1 s (validMovesOf_NoDup pieces p)).
    cbv zeta in Hfold.
    split; [|split; [|split; [|split]]].
    + intros s. destruct (Hfold s) as [_ [-> _]].
      subst st1. cbn [ChessLogic.squareReachCounts].
      rewrite reachers_snoc, Hcnt. fold vm.
      destruct (includes vm s).
      * now rewrite storedCount_snoc, orZero_storedCount.
      * now rewrite app_nil_r.
    + intros s. destruct (Hfold s) as [_ [_ [-> _]]].
      subst st1. cbn [ChessLogic.squareReachCounts ChessLogic.squareReacher].
      rewrite reachers_snoc, Hcnt, Hrch, orZero_storedCount. fold vm.
      destruct (includes vm s); cbn [andb].
      * destruct (Spec.reachers pieces among s); reflexivity.
      * now rewrite app_nil_r.
    + destruct (Hfold 0) as [_ [_ [_ H]]]. apply H. exact Hkeys.
    + intros e He. destruct (Hfold 0) as [Heq _]. rewrite Heq in He.
      subst st1. cbn [ChessLogic.pieceMoves] in He.
      apply mset_In in He. destruct He as [->|He].
      * exists p. split; [apply in_or_app; simpl; auto | reflexivity].
      * destruct (Hmv e He) as [q [Hq ->]]. exists q.
        split; [apply in_or_app; auto | reflexivity].
    + intros Hnd. destruct (Hfold 0) as [-> _].
      subst st1. cbn [ChessLogic.pieceMoves].
      rewrite map_app in Hnd. apply NoDup_remove in Hnd. rewrite app_nil_r in Hnd.
      destruct Hnd as [Hnd Hfresh].
      rewrite (Hmvs Hnd), map_app. apply (mset_fresh _ String.eqb_eq).
      rewrite map_map. simpl. exact Hfresh.
Qed.

Lemma reachCount_reachers (pieces : list Piece) (s : Z) :
  ChessLogic.reachCount pieces s =
  Z.of_nat (List.length (Spec.reachers pieces pieces s)).
Proof.
  unfold ChessLogic.reachCount, ChessLogic.reachability.
  destruct (reach_fold pieces pieces) as [-> _]. apply orZero_storedCount.
Qed.

Lemma NoDup_keys_In_mget {V : Type} (m : list (Z * V)) (k : Z) (v : V) :
  NoDup (map fst m) -> In (k, v) m -> mget Z.eqb k m = Some v.
Proof.
  induction m as [|[k' v'] m IH]; simpl; intros Hnd Hin; [contradiction|].
  inversion Hnd as [|? ? Hk Hrest]; subst.
  destruct Hin as [[= -> ->]|Hin].
  - now rewrite Z.eqb_refl.
  - destruct (Z.eqb_spec k k') as [->|Hne]; [|auto].
    exfalso. apply Hk. apply in_map_iff. exists (k', v). auto.
Qed.

(** Unique targets are the squares whose stored count is 1. *)
Lemma uniqueTargets_In (pieces : list Piece) (s : Z) :
  In s (ChessLogic.uniqueTargets pieces) <-> ChessLogic.reachCount pieces s = 1.
Proof.
  unfold ChessLogic.uniqueTargets, ChessLogic.uniqueTargetsOf, ChessLogic.reachCount,
    ChessLogic.reachability.
  destruct (reach_fold pieces pieces) as [Hcnt [_ [Hkeys _]]]. cbv zeta in Hcnt, Hkeys.
  set (counts := ChessLogic.squareReachCounts _) in *.
  rewrite in_map_iff. split.
  - intros [[k c] [Hk Hin]]. simpl in Hk. subst k.
    apply filter_In in Hin. destruct Hin as [Hin Hc]. simpl in Hc.
    apply Z.eqb_eq in Hc. subst c.
    now rewrite (NoDup_keys_In_mget _ _ _ Hkeys Hin).
  - intros Hone. destruct (mget Z.eqb s counts) as [c|] eqn:E; simpl in Hone; [|lia].
    subst c. exists (s, 1). split; [reflexivity|].
    apply filter_In. split; [|reflexivity].
    now apply (mget_Some_In _ Z.eqb_eq).
Qed.

Lemma uniqueTargets_NoDup (pieces : list Piece) : NoDup (ChessLogic.uniqueTargets pieces).
Proof.
  unfold ChessLogic.uniqueTargets, ChessLogic.uniqueTargetsOf, ChessLogic.reachability.
  destruct (reach_fold pieces pieces) as [_ [_ [Hkeys _]]]. cbv zeta in Hkeys.
  set (counts := ChessLogic.squareReachCounts _) in *. clearbody counts.
  induction counts as [|[k c] counts IH]; simpl; [constructor|].
  inversion Hkeys as [|? ? Hk Hrest]; subst.
  destruct (c =? 1); simpl; [|auto].
  constructor; [|auto].
  intros Hin. apply Hk. apply in_map_iff in Hin. destruct Hin as [e [<- He]].
  apply filter_In in He. apply in_map. tauto.
Qed.

(** A square with a reacher is a valid move of a piece of the board. *)
Lemma reachers_valid (pieces among : list Piece) (s : Z) (p : Piece) :
  In p (Spec.reachers pieces among s) ->
  In p among /\ In s (ChessLogic.validMovesOf pieces p).
Proof.
  unfold Spec.reachers. rewrite filter_In, includes_In. tauto.
Qed.

Lemma uniqueTargets_valid (pieces : list Piece) (s : Z) :
  In s (ChessLogic.uniqueTargets pieces) ->
  exists p, In p pieces /\ In s (ChessLogic.validMovesOf pieces p).
Proof.
  rewrite uniqueTargets_In, reachCount_reachers. intros Hone.
  destruct (Spec.reachers pieces pieces s) as [|p l] eqn:E; [simpl in Hone; lia|].
  exists p. apply (reachers_valid pieces pieces). rewrite E. now left.
Qed.

Lemma fallbackPool_valid (pieces : list Piece) (s : Z) :
  In s (ChessLogic.fallbackPool pieces) ->
  exists p, In p pieces /\ In s (ChessLogic.validMovesOf pieces p).
Proof.
  unfold ChessLogic.fallbackPool, ChessLogic.allMovesOf, ChessLogic.reachability.
  destruct (reach_fold pieces pieces) as [_ [_ [_ [Hmv _]]]]. cbv zeta in Hmv.
  rewrite in_flat_map. intros [e [He Hs]].
  destruct (Hmv e He) as [p [Hp ->]]. exists p. auto.
Qed.

Lemma fallbackPool_distinct_ids (pieces : list Piece) :
  NoDup (map id pieces) ->
  ChessLogic.fallbackPool pieces = flat_map (ChessLogic.validMovesOf pieces) pieces.
Proof.
  intros Hnd.
  unfold ChessLogic.fallbackPool, ChessLogic.allMovesOf, ChessLogic.reachability.
  destruct (reach_fold pieces pieces) as [_ [_ [_ [_ Hmvs]]]]. cbv zeta in Hmvs.
  rewrite (Hmvs Hnd). rewrite !flat_map_concat_map, map_map. reflexivity.
Qed.

(** ** Random draws *)

Lemma randomIndex_range (u : Q) (n : nat) :
  (0 <= u)%Q -> (u < 1)%Q -> (0 < n)%nat ->
  0 <= randomIndex u n < Z.of_nat n.
Proof.
  intros H0 H1 Hn. unfold randomIndex.
  assert (Hpos : (0 < inject_Z (Z.of_nat n))%Q).
  { rewrite <- (Zlt_Qlt 0). lia. }
  split.
  - change 0 with (Qfloor 0). apply Qfloor_resp_le.
    apply Qmult_le_0_compat; [assumption | now apply Qlt_le_weak].
  - rewrite Zlt_Qlt.
    apply Qle_lt_trans with (u * inject_Z (Z.of_nat n))%Q; [apply Qfloor_le|].
    rewrite <- (Qmult_1_l (inject_Z (Z.of_nat n))) at 2.
    now apply Qmult_lt_compat_r.
Qed.

Lemma at_index_In {A : Type} (arr : list A) (i : Z) (x : A) :
  at_index arr i = Some x -> In x arr.
Proof.
  unfold at_index. destruct (i <? 0); [discriminate|]. apply nth_error_In.
Qed.



(** ** The weighted walk *)

Lemma totalWeight_from (pool : list (Z * Q)) (start : Q) :
  (fold_left (fun total item => total + snd item) pool start ==
   start + ChessLogic.totalWeight pool)%Q.
Proof.
  unfold ChessLogic.totalWeight. revert start.
  induction pool as [|item pool IH]; intros start; simpl.
  - ring.
  - rewrite (IH (start + snd item)%Q), (IH (0 + snd item)%Q). ring.
Qed.

Lemma totalWeight_cons (item : Z * Q) (pool : list (Z * Q)) :
  (ChessLogic.totalWeight (item :: pool) == snd item + ChessLogic.totalWeight pool)%Q.
Proof.
  unfold ChessLogic.totalWeight at 1. simpl. rewrite totalWeight_from. ring.
Qed.

Lemma weightedWalk_In (pool : list (Z * Q)) (r : Q) (t : Z) :
  ChessLogic.weightedWalk r pool = Some t -> In t (map fst pool).
Proof.
  revert r. induction pool as [|item pool IH]; intros r; simpl; [discriminate|].
  destruct (Qltb r (snd item)); [intros [= <-]; now left|].
  intros H. right. eapply IH; eassumption.
Qed.

Lemma weightedDraw_In (pool : list (Z * Q)) (r : Q) (t : Z) :
  ChessLogic.weightedDraw r pool = Some t -> In t (map fst pool).
Proof.
  unfold ChessLogic.weightedDraw.
  destruct (ChessLogic.weightedWalk r pool) eqn:E.
  - intros [= <-]. eapply weightedWalk_In; eassumption.
  - destruct pool as [|item pool]; simpl; [discriminate|].
    intros [= <-]. now left.
Qed.


(** ** The weighted pool *)

Lemma weightedPool_squares (pieces : list Piece) (history : list string) :
  map fst (ChessLogic.weightedPool pieces history) = ChessLogic.uniqueTargets pieces.
Proof.
  unfold ChessLogic.weightedPool, ChessLogic.weightedPoolOf.
  rewrite map_map. simpl. apply map_id.
Qed.

(** ** The selector, branch by branch *)

Lemma generateTargetSquare_branches (u : Q) (pieces : list Piece) (history : list string) :
  ChessLogic.generateTargetSquare u pieces history =
  match ChessLogic.uniqueTargets pieces with
  | [] =>
      match ChessLogic.fallbackPool pieces with
      | [] => Some (-1)
      | _ => at_index (ChessLogic.fallbackPool pieces)
                      (randomIndex u (List.length (ChessLogic.fallbackPool pieces)))
      end
  | _ =>
      if Qle_bool (ChessLogic.totalWeight (ChessLogic.weightedPool pieces history)) 0
      then at_index (ChessLogic.uniqueTargets pieces)
                    (randomIndex u (List.length (ChessLogic.uniqueTargets pieces)))
      else ChessLogic.weightedDraw (ChessLogic.drawValue u pieces history)
                                   (ChessLogic.weightedPool pieces history)
  end.
Proof.
  unfold ChessLogic.generateTargetSquare, ChessLogic.drawValue,
    ChessLogic.weightedPool, ChessLogic.fallbackPool.
  fold (ChessLogic.uniqueTargets pieces).
  destruct (ChessLogic.uniqueTargets pieces); cbn [List.length Nat.eqb]; [|reflexivity].
  destruct (ChessLogic.allMovesOf _); reflexivity.
Qed.

(** Whatever the selector returns is the sentinel of an empty fallback pool
    or a valid move of some piece. *)
Lemma generateTargetSquare_result
      (u : Q) (pieces : list Piece) (history : list string) (t : Z) :
  ChessLogic.generateTargetSquare u pieces history = Some t ->
  (t = -1 /\ ChessLogic.uniqueTargets pieces = [] /\ ChessLogic.fallbackPool pieces = []) \/
  (exists p, In p pieces /\ In t (ChessLogic.validMovesOf pieces p)).
Proof.
  rewrite generateTargetSquare_branches.
  destruct (ChessLogic.uniqueTargets pieces) as [|s0 ut] eqn:Hut.
  - destruct (ChessLogic.fallbackPool pieces) as [|m0 pool] eqn:Hpool.
    + intros [= <-]. left. auto.
    + intros H. right. apply at_index_In in H. rewrite <- Hpool in H.
      now apply fallbackPool_valid.
  - intros H. right. apply uniqueTargets_valid. rewrite Hut.
    destruct (Qle_bool _ 0).
    + eapply at_index_In; eassumption.
    + apply weightedDraw_In in H.
      now rewrite weightedPool_squares, Hut in H.
Qed.


(** C1.  For pieces on pairwise-distinct squares of the board and any
    history, whatever [generateTargetSquare] returns, in any of its branches,
    is not the square of a piece. *)
Theorem target_is_never_occupied
        (u : Q) (pieces : list Piece) (history : list string) (t : Z) :
  NoDup (map square pieces) ->
  (forall p, In p pieces -> 0 <= square p <= 63) ->
  ChessLogic.generateTargetSquare u pieces history = Some t ->
  ~ In t (map square pieces).
Proof.
  intros _ Hrange Hres Hocc.
  apply in_map_iff in Hocc. destruct Hocc as [p [Hsq Hp]].
  apply generateTargetSquare_result in Hres.
  destruct Hres as [[-> _]|[q [Hq Ht]]].
  - specialize (Hrange p Hp). lia.
  - revert Hsq. eapply validMovesOf_empty_square; eassumption.
Qed.

Lemma target_is_never_occupied_witness :
  ~ In 26 (map square Boards.threePieces).
Proof.
  apply (target_is_never_occupied (1 # 2) Boards.threePieces [] 26).
  - vm_compute. repeat constructor; simpl; intuition discriminate.
  - intros p Hp. vm_compute in Hp. in_list Hp; simpl; lia.
  - vm_compute. reflexivity.
Defined.



(** Why the ids must be distinct: [pieceMoves] is keyed by id, so a later
    piece overwrites the moves of an earlier one with the same id.  Here both
    bishops can move to b7, yet the selector answers with the sentinel. *)
Example shared_ids_hide_moves :
  ChessLogic.validMovesOf Boards.sharedIds (Boards.piece "p-0" BISHOP 0) = [9] /\
  ChessLogic.validMovesOf Boards.sharedIds (Boards.piece "p-1" BISHOP 2) = [9] /\
  ChessLogic.generateTargetSquare (1 # 2) Boards.sharedIds [] = Some (-1).
Proof. repeat split; vm_compute; reflexivity. Qed.

(** ** The fallback draw *)



(** ** The forced single target *)

Lemma pieceWeight_last_two (history : list string) (pid : string) :
  (ChessLogic.pieceWeight (history ++ [pid; pid]) pid == 0)%Q.
Proof.
  rewrite pieceWeight_spec. unfold Spec.weight, Spec.isLastTwo.
  rewrite rev_app_distr. simpl. rewrite String.eqb_refl. simpl. reflexivity.
Qed.

(** C6.  If exactly one square [s] has reachability count 1, the piece
    reaching it is the piece whose id fills the last two history entries, and
    no other square is a valid move of any piece, then [generateTargetSquare]
    returns [s]. *)
Theorem sole_target_still_returned
        (u : Q) (pieces : list Piece) (history : list string) (p : Piece) (s : Z) :
  (0 <= u)%Q -> (u < 1)%Q ->
  (forall t, ChessLogic.reachCount pieces t = 1 <-> t = s) ->
  In p pieces ->
  In s (ChessLogic.validMovesOf pieces p) ->
  (forall q t, In q pieces -> In t (ChessLogic.validMovesOf pieces q) -> t = s) ->
  ChessLogic.generateTargetSquare u pieces (history ++ [id p; id p]) = Some s.
Proof.
  intros H0 H1 Hone Hp Hs _.
  assert (Hut : ChessLogic.uniqueTargets pieces = [s]).
  { assert (Hin : In s (ChessLogic.uniqueTargets pieces))
      by (apply uniqueTargets_In, Hone; reflexivity).
    assert (Hall : forall t, In t (ChessLogic.uniqueTargets pieces) -> t = s)
      by (intros t Ht; apply Hone, uniqueTargets_In, Ht).
    pose proof (uniqueTargets_NoDup pieces) as Hnd.
    destruct (ChessLogic.uniqueTargets pieces) as [|a [|b l]].
    - contradiction.
    - f_equal. apply Hall. now left.
    - exfalso. inversion Hnd as [|? ? Ha _]; subst. apply Ha.
      rewrite (Hall a), (Hall b); simpl; auto. }
  assert (Hreacher : mget Z.eqb s (ChessLogic.squareReacher (ChessLogic.reachability pieces))
                     = Some (id p)).
  { unfold ChessLogic.reachability.
    destruct (reach_fold pieces pieces) as [_ [-> _]].
    assert (Hlen : Z.of_nat (List.length (Spec.reachers pieces pieces s)) = 1).
    { rewrite <- reachCount_reachers. now apply Hone. }
    assert (Hpin : In p (Spec.reachers pieces pieces s)).
    { unfold Spec.reachers. apply filter_In. split; [assumption|].
      now apply includes_In. }
    destruct (Spec.reachers pieces pieces s) as [|a [|b l]]; simpl in Hlen; try lia.
    destruct Hpin as [->|[]]. reflexivity. }
  assert (Hpool : exists w, ChessLogic.weightedPool pieces (history ++ [id p; id p]) = [(s, w)]
                            /\ (w == 0)%Q).
  { unfold ChessLogic.weightedPool, ChessLogic.weightedPoolOf.
    rewrite Hut. simpl. rewrite Hreacher.
    rewrite (pieceWeightsOf_get _ pieces p Hp). simpl.
    eexists. split; [reflexivity | apply pieceWeight_last_two]. }
  destruct Hpool as [w [Hpool Hw]].
  rewrite generateTargetSquare_branches, Hut, Hpool.
  assert (Hzero : Qle_bool (ChessLogic.totalWeight [(s, w)]) 0 = true).
  { apply Qle_bool_iff. rewrite totalWeight_cons. simpl.
    unfold ChessLogic.totalWeight. simpl. rewrite Hw. discriminate. }
  rewrite Hzero.
  assert (Hidx : randomIndex u (List.length [s]) = 0).
  { pose proof (randomIndex_range u 1 H0 H1 ltac:(lia)). simpl. lia. }
  rewrite Hidx. reflexivity.
Qed.

Lemma sole_target_still_returned_witness :
  ChessLogic.generateTargetSquare (1 # 2) Boards.corneredBishop
    (["p-1"%string] ++ ["p-0"%string; "p-0"%string]) = Some 9.
Proof.
  apply (sole_target_still_returned (1 # 2) Boards.corneredBishop ["p-1"%string]
                                    (Boards.piece "p-0" BISHOP 0) 9).
  - discriminate.
  - reflexivity.
  - intros t. rewrite <- uniqueTargets_In. vm_compute. intuition.
  - simpl. tauto.
  - vm_compute. tauto.
  - intros q t Hq Ht. vm_compute in Hq. in_list Hq; vm_compute in Ht; intuition.
Defined.

(** ** Rounding of the weights

    On doubles the weight of a piece differs from its exact value by less
    than [2^-52], and it is zero exactly when the exact value is zero: the
    test [totalPoolWeight <= 0] and the zero-weight rule decide alike in both
    readings. *)

Lemma historyCount_bound (history : list string) (pid : string) :
  (List.length (filter (fun i => String.eqb i pid) history) <= List.length history)%nat.
Proof.
  induction history as [|i history IH]; simpl; [lia|].
  destruct (String.eqb i pid); simpl; lia.
Qed.

Lemma binary64_weight_agrees (history : list string) (pid : string) :
  (List.length history <= 5)%nat ->
  exists q, Binary64.valueOf (Binary64.pieceWeight history pid) = Some q /\
            (Qabs (q - ChessLogic.pieceWeight history pid) <= 1 # (2 ^ 52))%Q /\
            ((q == 0)%Q <-> (ChessLogic.pieceWeight history pid == 0)%Q).
Proof.
  intros Hlen. pose proof (historyCount_bound history pid) as Hcount.
  unfold Binary64.pieceWeight, Binary64.rawWeight,
    ChessLogic.pieceWeight, ChessLogic.rawWeight. cbv zeta.
  set (n := List.length (filter _ history)) in *.
  set (b2 := ((2 <=? List.length history)%nat && _ && _)%bool).
  set (b1 := ((0 <? List.length history)%nat && _)%bool).
  clearbody n b1 b2.
  assert (Hn : (n <= 5)%nat) by lia. clear Hlen Hcount.
  do 6 (destruct n as [|n]; [destruct b1, b2; vm_compute;
    (eexists; split; [reflexivity|]; split;
      [intros H; discriminate H | split; intros H; solve [reflexivity | discriminate H]])|]).
  lia.
Qed.

(** ** The selector on doubles *)

Lemma binary64_pieceWeightsOf_get (history : list string) (pieces : list Piece) (p : Piece) :
  In p pieces ->
  mget String.eqb (id p) (Binary64.pieceWeightsOf pieces history) =
  Some (Binary64.pieceWeight history (id p)).
Proof.
  unfold Binary64.pieceWeightsOf. generalize (@nil (string * float)).
  induction pieces as [|q pieces IH] using rev_ind; intros m Hin; [contradiction|].
  rewrite fold_left_app. simpl.
  destruct (String.eqb_spec (id p) (id q)) as [Heq|Hne].
  - rewrite <- Heq. apply (mget_mset_same _ String.eqb_eq).
  - rewrite (mget_mset_other _ String.eqb_eq) by assumption.
    apply IH. apply in_app_or in Hin. destruct Hin as [H|[->|[]]]; tauto.
Qed.

(** C5 (amended).  For a piece of the board and a history of at most 5
    entries, the weight the selector stores for the piece is a double within
    2^-52 of: 1.0, less 0.3 per occurrence of its id in the history, less 0.6
    if the last entry is its id, forced to 0 if the last two entries both are
    its id, clamped below at 0; and it is exactly 0 whenever that value
    is 0. *)
Theorem piece_weight_up_to_rounding
        (pieces : list Piece) (history : list string) (p : Piece) :
  In p pieces ->
  (List.length history <= 5)%nat ->
  exists w q,
    mget String.eqb (id p) (Binary64.pieceWeightsOf pieces history) = Some w /\
    Binary64.valueOf w = Some q /\
    (Qabs (q - Spec.weight (id p) history) <= 1 # (2 ^ 52))%Q /\
    ((q == 0)%Q <-> (Spec.weight (id p) history == 0)%Q).
Proof.
  intros Hin Hlen.
  destruct (binary64_weight_agrees history (id p) Hlen) as [q [Hq [Hgap Hzero]]].
  exists (Binary64.pieceWeight history (id p)), q.
  split; [now apply binary64_pieceWeightsOf_get|]. split; [assumption|].
  pose proof (pieceWeight_spec history (id p)) as Hspec. split.
  - assert (Hsame : (q - Spec.weight (id p) history ==
                     q - ChessLogic.pieceWeight history (id p))%Q)
      by (rewrite Hspec; reflexivity).
    rewrite (Qabs_wd _ _ Hsame). exact Hgap.
  - rewrite <- Hspec. exact Hzero.
Qed.

Lemma piece_weight_up_to_rounding_witness :
  exists w q,
    mget String.eqb "p-1"%string
         (Binary64.pieceWeightsOf Boards.threePieces Boards.fullHistory) = Some w /\
    Binary64.valueOf w = Some q /\
    (Qabs (q - Spec.weight "p-1"%string Boards.fullHistory) <= 1 # (2 ^ 52))%Q /\
    ((q == 0)%Q <-> (Spec.weight "p-1"%string Boards.fullHistory == 0)%Q).
Proof.
  apply (piece_weight_up_to_rounding Boards.threePieces Boards.fullHistory
                                     (Boards.piece "p-1"%string KNIGHT 1)).
  - simpl. tauto.
  - simpl. lia.
Defined.

(** C5 as stated fails: with the history [p-0; p-1] the formula gives the
    knight p-1 the weight 1 - 0.3 - 0.6 = 0.1, and the code stores the double
    0x1.9999999999998p-4 = 0.09999999999999998, which is another number. *)
Lemma piece_weight_not_exact :
  In (Boards.piece "p-1"%string KNIGHT 1) Boards.threePieces /\
  (List.length ["p-0"; "p-1"]%string <= 5)%nat /\
  (Spec.weight "p-1"%string ["p-0"; "p-1"]%string == 1 # 10)%Q /\
  mget String.eqb "p-1"%string
       (Binary64.pieceWeightsOf Boards.threePieces ["p-0"; "p-1"]%string)
    = Some 0x1.9999999999998p-4%float /\
  Binary64.valueOf 0x1.9999999999998p-4%float
    = Some (7205759403792792 # 72057594037927936) /\
  ~ ((7205759403792792 # 72057594037927936)
     == Spec.weight "p-1"%string ["p-0"; "p-1"]%string)%Q.
Proof.
  split; [simpl; tauto|]. split; [simpl; lia|]. split; [reflexivity|].
  split; [vm_compute; reflexivity|]. split; [vm_compute; reflexivity|].
  intros H. vm_compute in H. discriminate H.
Qed.

Lemma binary64_branches (u : float) (pieces : list Piece) (history : list string) :
  Binary64.generateTargetSquare u pieces history =
  match ChessLogic.uniqueTargets pieces with
  | [] =>
      match ChessLogic.fallbackPool pieces with
      | [] => Some (-1)
      | _ => Binary64.pick (ChessLogic.fallbackPool pieces)
               (Binary64.randomIndex u (List.length (ChessLogic.fallbackPool pieces)))
      end
  | _ =>
      if PrimFloat.leb (Binary64.totalWeight (Binary64.weightedPool pieces history)) 0
      then Binary64.pick (ChessLogic.uniqueTargets pieces)
             (Binary64.randomIndex u (List.length (ChessLogic.uniqueTargets pieces)))
      else Binary64.weightedDraw (Binary64.drawValue u pieces history)
                                 (Binary64.weightedPool pieces history)
  end.
Proof.
  unfold Binary64.generateTargetSquare, Binary64.drawValue, Binary64.weightedPool,
    ChessLogic.fallbackPool.
  fold (ChessLogic.uniqueTargets pieces).
  destruct (ChessLogic.uniqueTargets pieces); cbn [List.length Nat.eqb]; [|reflexivity].
  destruct (ChessLogic.allMovesOf _); reflexivity.
Qed.

Lemma binary64_pick_In {A : Type} (arr : list A) (i : option Z) (x : A) :
  Binary64.pick arr i = Some x -> In x arr.
Proof. destruct i; simpl; [apply at_index_In | discriminate]. Qed.

Lemma binary64_pool_squares (pieces : list Piece) (history : list string) :
  map fst (Binary64.weightedPool pieces history) = ChessLogic.uniqueTargets pieces.
Proof.
  unfold Binary64.weightedPool, Binary64.weightedPoolOf.
  rewrite map_map. simpl. apply map_id.
Qed.

Lemma binary64_walk_stops (before after : list (Z * float)) (sq : Z) (w random : float) :
  Binary64.passesOver random before = true ->
  PrimFloat.ltb (Binary64.remainder random before) w = true ->
  Binary64.weightedWalk random (before ++ (sq, w) :: after) = Some sq.
Proof.
  revert random.
  induction before as [|item before IH]; intros random Hpass Hlt; simpl in *.
  - unfold Binary64.remainder in Hlt. simpl in Hlt. now rewrite Hlt.
  - apply andb_true_iff in Hpass. destruct Hpass as [Hno Hpass].
    apply negb_true_iff in Hno. rewrite Hno. apply IH; assumption.
Qed.

Lemma binary64_walk_runs_out (pool : list (Z * float)) (random : float) :
  Binary64.weightedWalk random pool = None <->
  Binary64.passesOver random pool = true.
Proof.
  revert random. induction pool as [|item pool IH]; intros random; simpl.
  - tauto.
  - destruct (PrimFloat.ltb random (snd item)); simpl.
    + split; discriminate.
    + apply IH.
Qed.

Lemma binary64_walk_In (pool : list (Z * float)) (random : float) (t : Z) :
  Binary64.weightedWalk random pool = Some t -> In t (map fst pool).
Proof.
  revert random. induction pool as [|item pool IH]; intros random; simpl; [discriminate|].
  destruct (PrimFloat.ltb random (snd item)); [intros [= <-]; now left|].
  intros H. right. eapply IH; eassumption.
Qed.

(** C4 (amended).  In the weighted draw over unique targets with total pool
    weight above 0, [generateTargetSquare] walks the pool with the draw value
    and returns the first pool square whose weight strictly exceeds what is
    left of the draw once the weights before it have been subtracted, one by
    one, in double precision; when no entry does, it returns the first pool
    entry.  Either way the result is one of the unique targets. *)
Theorem weighted_draw_walk (u : float) (pieces : list Piece) (history : list string) :
  ChessLogic.uniqueTargets pieces <> [] ->
  PrimFloat.leb (Binary64.totalWeight (Binary64.weightedPool pieces history)) 0 = false ->
  (forall before sq w after,
      Binary64.weightedPool pieces history = before ++ (sq, w) :: after ->
      Binary64.passesOver (Binary64.drawValue u pieces history) before = true ->
      PrimFloat.ltb (Binary64.remainder (Binary64.drawValue u pieces history) before) w
        = true ->
      Binary64.generateTargetSquare u pieces history = Some sq) /\
  (Binary64.passesOver (Binary64.drawValue u pieces history)
                       (Binary64.weightedPool pieces history) = true ->
   Binary64.generateTargetSquare u pieces history =
   option_map fst (hd_error (Binary64.weightedPool pieces history))) /\
  (exists t, Binary64.generateTargetSquare u pieces history = Some t /\
             In t (ChessLogic.uniqueTargets pieces)).
Proof.
  intros Hut Htot. rewrite binary64_branches.
  destruct (ChessLogic.uniqueTargets pieces) as [|s0 ut] eqn:E; [contradiction|].
  rewrite Htot. unfold Binary64.weightedDraw. split; [|split].
  - intros before sq w after Hsplit Hpass Hlt.
    rewrite Hsplit. now rewrite (binary64_walk_stops before after sq w _ Hpass Hlt).
  - intros Hpass. apply binary64_walk_runs_out in Hpass. rewrite Hpass.
    destruct (Binary64.weightedPool pieces history); reflexivity.
  - pose proof (binary64_pool_squares pieces history) as Hsq. rewrite E in Hsq.
    destruct (Binary64.weightedWalk _ _) as [t|] eqn:Ew.
    + exists t. split; [reflexivity|]. apply binary64_walk_In in Ew.
      now rewrite Hsq in Ew.
    + destruct (Binary64.weightedPool pieces history) as [|[sq w] pool];
        [discriminate|].
      exists sq. split; [reflexivity|]. rewrite <- Hsq. now left.
Qed.

Lemma weighted_draw_walk_witness :
  (forall before sq w after,
      Binary64.weightedPool Boards.loneKnight [] = before ++ (sq, w) :: after ->
      Binary64.passesOver (Binary64.drawValue 0.75 Boards.loneKnight []) before = true ->
      PrimFloat.ltb (Binary64.remainder (Binary64.drawValue 0.75 Boards.loneKnight [])
                                        before) w = true ->
      Binary64.generateTargetSquare 0.75 Boards.loneKnight [] = Some sq) /\
  (Binary64.passesOver (Binary64.drawValue 0.75 Boards.loneKnight [])
                       (Binary64.weightedPool Boards.loneKnight []) = true ->
   Binary64.generateTargetSquare 0.75 Boards.loneKnight [] =
   option_map fst (hd_error (Binary64.weightedPool Boards.loneKnight []))) /\
  (exists t, Binary64.generateTargetSquare 0.75 Boards.loneKnight [] = Some t /\
             In t (ChessLogic.uniqueTargets Boards.loneKnight)).
Proof.
  apply (weighted_draw_walk 0.75 Boards.loneKnight []).
  - vm_compute. discriminate.
  - vm_compute. reflexivity.
Defined.

Example weighted_draw_second_entry :
  Binary64.weightedPool Boards.loneKnight [] = [(10, 1%float); (17, 1%float)] /\
  Binary64.generateTargetSquare 0.75 Boards.loneKnight [] = Some 17.
Proof. split; vm_compute; reflexivity. Qed.

(** C4 as stated fails, in both halves.  Rook a8, knight b8, bishop a7, after
    the knight and then the bishop have moved: the pool is the knight's
    squares 11, 16, 18 at weight 0.7 and the bishop's 17, 26, 35, 44, 53, 62
    at weight 0.1 (as doubles), summed to 2.7000000000000002.  With
    [Math.random()] at the largest double below 1 the draw value is below
    that total, and the first square whose cumulative weight exceeds it is
    the final entry, 62; yet the subtractions leave the loop with nothing to
    stop at, and the code returns [weightedPool[0].sq = 11]: not the first
    square whose cumulative weight exceeds the draw, and not the final pool
    entry. *)
Lemma weighted_draw_runs_out_below_total :
  ChessLogic.uniqueTargets Boards.threePieces <> [] /\
  PrimFloat.leb (Binary64.totalWeight
                   (Binary64.weightedPool Boards.threePieces ["p-1"; "p-2"]%string)) 0
    = false /\
  PrimFloat.leb 0 Binary64.almostOne = true /\
  PrimFloat.ltb Binary64.almostOne 1 = true /\
  PrimFloat.leb 0 (Binary64.drawValue Binary64.almostOne Boards.threePieces
                                      ["p-1"; "p-2"]%string) = true /\
  PrimFloat.ltb (Binary64.drawValue Binary64.almostOne Boards.threePieces
                                    ["p-1"; "p-2"]%string)
                (Binary64.totalWeight
                   (Binary64.weightedPool Boards.threePieces ["p-1"; "p-2"]%string))
    = true /\
  map fst (Binary64.weightedPool Boards.threePieces ["p-1"; "p-2"]%string)
    = [11; 16; 18; 17; 26; 35; 44; 53; 62] /\
  Spec.firstExceedingDouble 0
    (Binary64.drawValue Binary64.almostOne Boards.threePieces ["p-1"; "p-2"]%string)
    (Binary64.weightedPool Boards.threePieces ["p-1"; "p-2"]%string) = Some 62 /\
  Binary64.passesOver
    (Binary64.drawValue Binary64.almostOne Boards.threePieces ["p-1"; "p-2"]%string)
    (Binary64.weightedPool Boards.threePieces ["p-1"; "p-2"]%string) = true /\
  Binary64.generateTargetSquare Binary64.almostOne Boards.threePieces
                                ["p-1"; "p-2"]%string = Some 11 /\
  option_map fst (hd_error (rev (Binary64.weightedPool Boards.threePieces
                                                       ["p-1"; "p-2"]%string)))
    = Some 62.
Proof.
  split; [vm_compute; discriminate|].
  repeat split; vm_compute; reflexivity.
Qed.




(** * Further properties of the code *)

(** ** More on the move generator *)

(** A property checked on the 64 squares holds on every square of the
    board. *)
Lemma forall_squares (P : Z -> bool) :
  forallb (fun n => P (Z.of_nat n)) (seq 0 64) = true ->
  forall sq, 0 <= sq <= 63 -> P sq = true.
Proof.
  intros Hall sq Hsq. rewrite forallb_forall in Hall.
  specialize (Hall (Z.to_nat sq)). rewrite Z2Nat.id in Hall by lia.
  apply Hall. apply in_seq. lia.
Qed.

Lemma slide_shrinks (fuel : nat) (blockers blockers' : list Z) (dr dc r c x : Z) :
  incl blockers blockers' ->
  In x (ChessLogic.slide fuel blockers' dr dc r c) ->
  In x (ChessLogic.slide fuel blockers dr dc r c).
Proof.
  intros Hincl. rewrite !in_slide. intros [j [Hj [Hx [Hon Hfree]]]].
  exists j. repeat split; try assumption.
  intros i Hi. specialize (Hfree i Hi).
  destruct (includes blockers _) eqn:E; [|reflexivity].
  apply includes_In in E. apply Hincl in E. apply includes_In in E. congruence.
Qed.

Lemma rawMoves_shrink (square : Z) (type : PieceType) (blockers blockers' : list Z) (x : Z) :
  incl blockers blockers' ->
  In x (ChessLogic.rawMoves square type blockers') ->
  In x (ChessLogic.rawMoves square type blockers).
Proof.
  intros Hincl.
  assert (Hslide : forall directions,
             In x (ChessLogic.addSlidingMoves (square / 8) (Z.rem square 8)
                     blockers' directions) ->
             In x (ChessLogic.addSlidingMoves (square / 8) (Z.rem square 8)
                     blockers directions)).
  { intros directions. rewrite !in_addSlidingMoves.
    intros [dr [dc [Hd Hx]]]. exists dr, dc.
    split; [assumption | eapply slide_shrinks; eassumption]. }
  unfold ChessLogic.rawMoves. destruct type.
  - apply Hslide.
  - apply Hslide.
  - apply Hslide.
  - intros H. assumption.
  - intros H. assumption.
  - intros H. assumption.
Qed.

Lemma getLegalMoves_shrink (square : Z) (type : PieceType) (blockers blockers' : list Z) (x : Z) :
  incl blockers blockers' ->
  In x (ChessLogic.getLegalMoves square type blockers') ->
  In x (ChessLogic.getLegalMoves square type blockers).
Proof.
  intros Hincl. unfold ChessLogic.getLegalMoves. rewrite !setOf_In.
  intros [Hx Hn]. split; [|assumption]. eapply rawMoves_shrink; eassumption.
Qed.

(** X1.  Blockers only take moves away: with more blockers, from any square
    and for any kind, every move returned was already returned with fewer. *)
Theorem more_blockers_fewer_moves
        (square : Z) (type : PieceType) (blockers blockers' : list Z) :
  incl blockers blockers' ->
  incl (ChessLogic.getLegalMoves square type blockers')
       (ChessLogic.getLegalMoves square type blockers).
Proof. intros Hincl x. now apply getLegalMoves_shrink. Qed.

Lemma more_blockers_fewer_moves_witness :
  incl (ChessLogic.getLegalMoves 27 QUEEN [19; 29; 35])
       (ChessLogic.getLegalMoves 27 QUEEN [19]).
Proof.
  apply (more_blockers_fewer_moves 27 QUEEN [19] [19; 29; 35]).
  intros x Hx. simpl in *. tauto.
Defined.

Lemma first_step_is_a_move (square : Z) (blockers : list Z)
      (directions : list (Z * Z)) (dr dc : Z) :
  In (dr, dc) directions ->
  onBoard (square / 8 + dr) (Z.rem square 8 + dc) = true ->
  In ((square / 8 + dr) * 8 + (Z.rem square 8 + dc))
     (ChessLogic.addSlidingMoves (square / 8) (Z.rem square 8) blockers directions).
Proof.
  intros Hd Hb. apply in_addSlidingMoves. exists dr, dc. split; [assumption|].
  unfold slideFuel. simpl. rewrite Hb.
  destruct (includes blockers _); now left.
Qed.

(** X2.  A piece of any kind but the pawn, standing on the board, has a legal
    move whatever the blockers are: a slider can always take its first step
    in some direction, since the square stepped to counts even when a blocker
    stands on it. *)
Theorem piece_on_board_can_move (square : Z) (type : PieceType) (blockers : list Z) :
  0 <= square <= 63 ->
  type <> PAWN ->
  ChessLogic.getLegalMoves square type blockers <> [].
Proof.
  intros Hsq Hty.
  destruct (square_row_col square Hsq) as [Hr [Hc _]].
  assert (Hexr : exists dr, (dr = 1 \/ dr = -1) /\ 0 <= square / 8 + dr < 8)
    by (destruct (Z_le_gt_dec (square / 8) 6); [exists 1 | exists (-1)]; lia).
  assert (Hexc : exists dc, (dc = 1 \/ dc = -1) /\ 0 <= Z.rem square 8 + dc < 8)
    by (destruct (Z_le_gt_dec (Z.rem square 8) 6); [exists 1 | exists (-1)]; lia).
  assert (Hexk : exists kr, (kr = 2 \/ kr = -2) /\ 0 <= square / 8 + kr < 8)
    by (destruct (Z_le_gt_dec (square / 8) 5); [exists 2 | exists (-2)]; lia).
  destruct Hexr as [dr [Hdr Hbr]], Hexc as [dc [Hdc Hbc]], Hexk as [kr [Hkr Hbk]].
  assert (Hsome : exists x, In x (ChessLogic.rawMoves square type blockers)).
  { unfold ChessLogic.rawMoves. destruct type; try contradiction.
    - eexists. apply (first_step_is_a_move _ _ _ dr 0).
      + destruct Hdr as [-> | ->]; simpl; tauto.
      + apply onBoard_true. lia.
    - eexists. apply (first_step_is_a_move _ _ _ dr 0).
      + destruct Hdr as [-> | ->]; simpl; tauto.
      + apply onBoard_true. lia.
    - eexists. apply (first_step_is_a_move _ _ _ dr dc).
      + destruct Hdr as [-> | ->], Hdc as [-> | ->]; simpl; tauto.
      + apply onBoard_true. lia.
    - eexists. apply in_stepMoves. exists kr, dc. split; [|split; [|reflexivity]].
      + destruct Hkr as [-> | ->], Hdc as [-> | ->]; simpl; tauto.
      + apply onBoard_true. lia.
    - eexists. apply in_stepMoves. exists dr, 0. split; [|split; [|reflexivity]].
      + destruct Hdr as [-> | ->]; vm_compute; tauto.
      + apply onBoard_true. lia. }
  destruct Hsome as [x Hx]. intros Hnil.
  assert (Hin : In x (ChessLogic.getLegalMoves square type blockers)).
  { apply setOf_In. split; [assumption | intros []]. }
  rewrite Hnil in Hin. contradiction.
Qed.

Lemma piece_on_board_can_move_witness :
  ChessLogic.getLegalMoves 0 BISHOP [9] <> [].
Proof.
  apply (piece_on_board_can_move 0 BISHOP [9]); [lia | discriminate].
Defined.

(** X3.  On the open board a rook has 14 moves from every square, a bishop
    between 7 and 13, a queen as many as rook and bishop together, a knight
    between 2 and 8 and a king between 3 and 8. *)
Theorem open_board_move_counts (square : Z) :
  0 <= square <= 63 ->
  List.length (ChessLogic.getLegalMoves square ROOK []) = 14%nat /\
  (7 <= List.length (ChessLogic.getLegalMoves square BISHOP []) <= 13)%nat /\
  List.length (ChessLogic.getLegalMoves square QUEEN []) =
    (List.length (ChessLogic.getLegalMoves square ROOK []) +
     List.length (ChessLogic.getLegalMoves square BISHOP []))%nat /\
  (2 <= List.length (ChessLogic.getLegalMoves square KNIGHT []) <= 8)%nat /\
  (3 <= List.length (ChessLogic.getLegalMoves square KING []) <= 8)%nat.
Proof.
  intros Hsq.
  pose (check := fun sq =>
    let n ty := List.length (ChessLogic.getLegalMoves sq ty []) in
    ((n ROOK =? 14) && (7 <=? n BISHOP) && (n BISHOP <=? 13) &&
     (n QUEEN =? n ROOK + n BISHOP) && (2 <=? n KNIGHT) && (n KNIGHT <=? 8) &&
     (3 <=? n KING) && (n KING <=? 8))%nat).
  assert (H : check square = true)
    by (apply forall_squares; [vm_compute; reflexivity | exact Hsq]).
  unfold check in H. cbv zeta in H.
  rewrite !andb_true_iff, !Nat.eqb_eq, !Nat.leb_le in H. lia.
Qed.

Lemma open_board_move_counts_witness :
  List.length (ChessLogic.getLegalMoves 36 ROOK []) = 14%nat /\
  (7 <= List.length (ChessLogic.getLegalMoves 36 BISHOP []) <= 13)%nat /\
  List.length (ChessLogic.getLegalMoves 36 QUEEN []) =
    (List.length (ChessLogic.getLegalMoves 36 ROOK []) +
     List.length (ChessLogic.getLegalMoves 36 BISHOP []))%nat /\
  (2 <= List.length (ChessLogic.getLegalMoves 36 KNIGHT []) <= 8)%nat /\
  (3 <= List.length (ChessLogic.getLegalMoves 36 KING []) <= 8)%nat.
Proof. apply (open_board_move_counts 36). lia. Defined.

(** ** Reaching a square *)

Lemma square_decode (r c : Z) :
  0 <= r -> 0 <= c < 8 ->
  (r * 8 + c) / 8 = r /\ Z.rem (r * 8 + c) 8 = c.
Proof.
  intros Hr Hc. rewrite Z.rem_mod_nonneg by lia.
  rewrite Z.add_comm, Z.div_add, Z.mod_add by lia.
  rewrite Z.div_small, Z.mod_small by lia. lia.
Qed.

Lemma canPieceReach_true (from to : Z) (type : PieceType) (pieces : list Piece) :
  ChessLogic.canPieceReach from to type pieces = true <->
  In to (ChessLogic.rawMoves from type
           (filter (fun sq => negb (sq =? from)) (map square pieces))).
Proof.
  unfold ChessLogic.canPieceReach, ChessLogic.getLegalMoves.
  rewrite includes_In, setOf_In. simpl. tauto.
Qed.

(** X4.  What a piece can reach is a square of the board, and never the
    square it stands on: no piece "reaches" the sentinel -1 or any other
    number off the board. *)
Theorem reach_lands_on_another_square
        (from to : Z) (type : PieceType) (pieces : list Piece) :
  ChessLogic.canPieceReach from to type pieces = true ->
  0 <= to <= 63 /\ (0 <= from <= 63 -> to <> from).
Proof.
  intros Hreach. apply canPieceReach_true in Hreach.
  apply rawMoves_cell in Hreach. destruct Hreach as [r [c [Hb [-> Hne]]]].
  apply onBoard_true in Hb. split; [lia|].
  intros Hfrom Heq. destruct (square_row_col from Hfrom) as [Hr [Hc Hdec]].
  rewrite Hdec in Heq. apply encode_inj in Heq; lia.
Qed.

Lemma reach_lands_on_another_square_witness :
  0 <= 18 <= 63 /\ (0 <= 0 <= 63 -> 18 <> 0).
Proof.
  apply (reach_lands_on_another_square 0 18 BISHOP Boards.corneredBishop).
  vm_compute. reflexivity.
Defined.

(** The squares a slider gets from a square of the board, ray by ray. *)
Lemma sliding_ray (a : Z) (blockers : list Z) (directions : list (Z * Z)) (x : Z) :
  0 <= a <= 63 ->
  incl directions ChessLogic.queenDirections ->
  (In x (ChessLogic.addSlidingMoves (a / 8) (Z.rem a 8) blockers directions) <->
   exists dr dc k,
     In (dr, dc) directions /\ 1 <= k /\ Spec.stepOnBoard a dr dc k /\
     x = Spec.stepSquare a dr dc k /\
     forall j, 1 <= j < k -> ~ In (Spec.stepSquare a dr dc j) blockers).
Proof.
  intros Ha Hincl. destruct (square_row_col a Ha) as [Hr [Hc _]].
  rewrite in_addSlidingMoves. split.
  - intros [dr [dc [Hd Hx]]]. apply in_slide in Hx.
    destruct Hx as [i [_ [Heq [Hon Hfree]]]].
    exists dr, dc, (Z.of_nat i + 1). rewrite iterSquare_step in Heq.
    split; [assumption|]. split; [lia|]. split; [|split; [assumption|]].
    + specialize (Hon i (Nat.le_refl i)). apply onBoard_true in Hon.
      unfold Spec.stepOnBoard, Spec.stepRow, Spec.stepCol. lia.
    + intros j Hj Hin. specialize (Hfree (Z.to_nat (j - 1)) ltac:(lia)).
      rewrite iterSquare_step in Hfree.
      replace (Z.of_nat (Z.to_nat (j - 1)) + 1) with j in Hfree by lia.
      apply includes_In in Hin. congruence.
  - intros [dr [dc [k [Hd [Hk [Hon [-> Hfree]]]]]]].
    exists dr, dc. split; [assumption|].
    unfold Spec.stepOnBoard, Spec.stepRow, Spec.stepCol in Hon.
    assert (Hdq := Hincl _ Hd). unfold ChessLogic.queenDirections in Hdq.
    apply in_slide. exists (Z.to_nat (k - 1)). split; [|split; [|split]].
    + unfold slideFuel. in_list Hdq; lia.
    + rewrite iterSquare_step. f_equal. lia.
    + intros i Hi. apply onBoard_true. in_list Hdq; lia.
    + intros i Hi. rewrite iterSquare_step.
      destruct (includes blockers _) eqn:E; [|reflexivity].
      apply includes_In in E. exfalso. revert E. apply Hfree. lia.
Qed.

Lemma others_In (sqs : list Z) (a x : Z) :
  In x (filter (fun sq => negb (sq =? a)) sqs) <-> In x sqs /\ x <> a.
Proof.
  rewrite filter_In, negb_true_iff, Z.eqb_neq. tauto.
Qed.

Lemma sliding_reverse (sqs : list Z) (directions : list (Z * Z)) (a b : Z) :
  0 <= a <= 63 -> 0 <= b <= 63 ->
  incl directions ChessLogic.queenDirections ->
  (forall dr dc, In (dr, dc) directions -> In (- dr, - dc) directions) ->
  In b (ChessLogic.addSlidingMoves (a / 8) (Z.rem a 8)
          (filter (fun sq => negb (sq =? a)) sqs) directions) ->
  In a (ChessLogic.addSlidingMoves (b / 8) (Z.rem b 8)
          (filter (fun sq => negb (sq =? b)) sqs) directions).
Proof.
  intros Ha Hb Hincl Hneg Hin.
  apply (sliding_ray a _ _ _ Ha Hincl) in Hin.
  destruct Hin as [dr [dc [k [Hd [Hk [Hon [Heq Hfree]]]]]]].
  apply (sliding_ray b _ _ _ Hb Hincl).
  exists (- dr), (- dc), k.
  destruct (square_row_col a Ha) as [Hra [Hca Hdeca]].
  unfold Spec.stepOnBoard, Spec.stepRow, Spec.stepCol in Hon.
  assert (Hdecb : b / 8 = a / 8 + k * dr /\ Z.rem b 8 = Z.rem a 8 + k * dc).
  { rewrite Heq. unfold Spec.stepSquare, Spec.stepRow, Spec.stepCol.
    apply square_decode; lia. }
  destruct Hdecb as [Hrb Hcb].
  assert (Hdq := Hincl _ Hd). unfold ChessLogic.queenDirections in Hdq.
  split; [now apply Hneg|]. split; [assumption|]. split; [|split].
  - unfold Spec.stepOnBoard, Spec.stepRow, Spec.stepCol. rewrite Hrb, Hcb. lia.
  - unfold Spec.stepSquare, Spec.stepRow, Spec.stepCol. rewrite Hrb, Hcb. lia.
  - intros j Hj Hblock. apply others_In in Hblock. destruct Hblock as [Hsq _].
    apply (Hfree (k - j)); [lia|]. apply others_In.
    assert (Hsame : Spec.stepSquare b (- dr) (- dc) j = Spec.stepSquare a dr dc (k - j)).
    { unfold Spec.stepSquare, Spec.stepRow, Spec.stepCol. rewrite Hrb, Hcb. lia. }
    rewrite <- Hsame. split; [assumption|]. rewrite Hsame.
    unfold Spec.stepSquare, Spec.stepRow, Spec.stepCol.
    intros Habs. rewrite Hdeca in Habs at 3.
    apply encode_inj in Habs; [|in_list Hdq; lia|lia].
    in_list Hdq; lia.
Qed.

Lemma step_reverse (offsets : list (Z * Z)) (a b : Z) :
  0 <= a <= 63 ->
  (forall dr dc, In (dr, dc) offsets -> In (- dr, - dc) offsets) ->
  In b (ChessLogic.stepMoves (a / 8) (Z.rem a 8) offsets) ->
  In a (ChessLogic.stepMoves (b / 8) (Z.rem b 8) offsets).
Proof.
  intros Ha Hneg Hin. apply in_stepMoves in Hin.
  destruct Hin as [dr [dc [Hd [Hon ->]]]]. apply onBoard_true in Hon.
  destruct (square_row_col a Ha) as [Hra [Hca Hdeca]].
  destruct (square_decode (a / 8 + dr) (Z.rem a 8 + dc)) as [-> ->]; try lia.
  apply in_stepMoves. exists (- dr), (- dc).
  split; [now apply Hneg|]. split; [apply onBoard_true; lia | lia].
Qed.

Lemma reach_reverse (a b : Z) (type : PieceType) (pieces : list Piece) :
  0 <= a <= 63 -> 0 <= b <= 63 ->
  ChessLogic.canPieceReach a b type pieces = true ->
  ChessLogic.canPieceReach b a type pieces = true.
Proof.
  intros Ha Hb. rewrite !canPieceReach_true. unfold ChessLogic.rawMoves.
  destruct type.
  - apply sliding_reverse; try assumption; [apply incl_refl|].
    intros dr dc Hd. unfold ChessLogic.queenDirections in *. in_list Hd; simpl; tauto.
  - apply sliding_reverse; try assumption.
    + intros d Hd. unfold ChessLogic.rookDirections in Hd. in_list Hd; simpl; tauto.
    + intros dr dc Hd. unfold ChessLogic.rookDirections in *. in_list Hd; simpl; tauto.
  - apply sliding_reverse; try assumption.
    + intros d Hd. unfold ChessLogic.bishopDirections in Hd. in_list Hd; simpl; tauto.
    + intros dr dc Hd. unfold ChessLogic.bishopDirections in *. in_list Hd; simpl; tauto.
  - apply step_reverse; [assumption|].
    intros dr dc Hd. unfold ChessLogic.knightOffsets in *. in_list Hd; simpl; tauto.
  - apply step_reverse; [assumption|].
    intros dr dc Hd. vm_compute in Hd. in_list Hd; vm_compute; tauto.
  - intros [].
Qed.

(** X5.  Reach is symmetric on the board: with the same pieces around, a
    piece of a kind on [a] reaches [b] exactly when a piece of that kind on
    [b] reaches [a]. *)
Theorem reach_is_symmetric (a b : Z) (type : PieceType) (pieces : list Piece) :
  0 <= a <= 63 -> 0 <= b <= 63 ->
  ChessLogic.canPieceReach a b type pieces = ChessLogic.canPieceReach b a type pieces.
Proof.
  intros Ha Hb.
  destruct (ChessLogic.canPieceReach a b type pieces) eqn:Eab,
           (ChessLogic.canPieceReach b a type pieces) eqn:Eba; try reflexivity.
  - apply reach_reverse in Eab; [congruence | assumption | assumption].
  - apply reach_reverse in Eba; [congruence | assumption | assumption].
Qed.

Lemma reach_is_symmetric_witness :
  ChessLogic.canPieceReach 0 18 BISHOP Boards.corneredBishop =
  ChessLogic.canPieceReach 18 0 BISHOP Boards.corneredBishop.
Proof. apply (reach_is_symmetric 0 18 BISHOP Boards.corneredBishop); lia. Defined.

(** ** The board component *)

(** X6.  From a square of the board and whatever the blockers, every move of
    a bishop lands on a square painted like its own, and every move of a
    knight on a square painted the other way. *)
Theorem bishop_keeps_colour_knight_changes (square : Z) (blockers : list Z) (m : Z) :
  0 <= square <= 63 ->
  (In m (ChessLogic.getLegalMoves square BISHOP blockers) ->
   ChessBoard.getSquareColor m = ChessBoard.getSquareColor square) /\
  (In m (ChessLogic.getLegalMoves square KNIGHT blockers) ->
   ChessBoard.getSquareColor m <> ChessBoard.getSquareColor square).
Proof.
  intros Hsq.
  pose (same := fun a b =>
    match ChessBoard.getSquareColor a, ChessBoard.getSquareColor b with
    | ChessBoard.BOARD_LIGHT, ChessBoard.BOARD_LIGHT
    | ChessBoard.BOARD_DARK, ChessBoard.BOARD_DARK => true
    | _, _ => false
    end).
  pose (check := fun sq =>
    forallb (fun x => same x sq) (ChessLogic.getLegalMoves sq BISHOP []) &&
    forallb (fun x => negb (same x sq)) (ChessLogic.getLegalMoves sq KNIGHT [])).
  assert (H : check square = true)
    by (apply forall_squares; [vm_compute; reflexivity | exact Hsq]).
  unfold check in H. apply andb_true_iff in H. destruct H as [Hb Hk].
  rewrite forallb_forall in Hb, Hk.
  assert (Hopen : incl [] blockers) by (intros x []).
  split; intros Hm; apply (getLegalMoves_shrink _ _ _ _ _ Hopen) in Hm.
  - specialize (Hb m Hm). unfold same in Hb.
    destruct (ChessBoard.getSquareColor m), (ChessBoard.getSquareColor square);
      congruence.
  - specialize (Hk m Hm). unfold same in Hk.
    destruct (ChessBoard.getSquareColor m), (ChessBoard.getSquareColor square);
      simpl in Hk; congruence.
Qed.

Lemma bishop_keeps_colour_knight_changes_witness :
  (In 9 (ChessLogic.getLegalMoves 0 BISHOP [18]) ->
   ChessBoard.getSquareColor 9 = ChessBoard.getSquareColor 0) /\
  (In 9 (ChessLogic.getLegalMoves 0 KNIGHT [18]) ->
   ChessBoard.getSquareColor 9 <> ChessBoard.getSquareColor 0).
Proof. apply (bishop_keeps_colour_knight_changes 0 [18] 9). lia. Defined.

(** X7.  The end points of the move line lie inside the view box, at least
    6.25 from its border, and two squares of the board with the same end
    point are the same square: the line of a move is never a single point. *)
Theorem line_coordinates_tell_squares_apart (a b : Z) :
  0 <= a <= 63 -> 0 <= b <= 63 ->
  ((25 # 4) <= fst (ChessBoard.getCoordinatesForLine a) <= 100 - (25 # 4))%Q /\
  ((25 # 4) <= snd (ChessBoard.getCoordinatesForLine a) <= 100 - (25 # 4))%Q /\
  ((fst (ChessBoard.getCoordinatesForLine a) ==
    fst (ChessBoard.getCoordinatesForLine b))%Q ->
   (snd (ChessBoard.getCoordinatesForLine a) ==
    snd (ChessBoard.getCoordinatesForLine b))%Q ->
   a = b).
Proof.
  intros Ha Hb.
  destruct (square_row_col a Ha) as [Hra [Hca Hdeca]].
  destruct (square_row_col b Hb) as [Hrb [Hcb Hdecb]].
  unfold ChessBoard.getCoordinatesForLine. cbn [fst snd].
  unfold Qle, Qeq. cbn.
  repeat split; lia.
Qed.

Lemma line_coordinates_tell_squares_apart_witness :
  ((25 # 4) <= fst (ChessBoard.getCoordinatesForLine 0) <= 100 - (25 # 4))%Q /\
  ((25 # 4) <= snd (ChessBoard.getCoordinatesForLine 0) <= 100 - (25 # 4))%Q /\
  ((fst (ChessBoard.getCoordinatesForLine 0) ==
    fst (ChessBoard.getCoordinatesForLine 63))%Q ->
   (snd (ChessBoard.getCoordinatesForLine 0) ==
    snd (ChessBoard.getCoordinatesForLine 63))%Q ->
   0 = 63).
Proof. apply (line_coordinates_tell_squares_apart 0 63); lia. Defined.

(** ** Drawing a free square *)

Lemma drawnSquare_range (u : Q) : unitDraw u -> 0 <= drawnSquare u <= 63.
Proof.
  intros [H0 H1]. unfold drawnSquare.
  pose proof (randomIndex_range u 64 H0 H1 ltac:(lia)). lia.
Qed.

Lemma getRandomSquare_first_free (draws : list Q) (exclude : list Z) (sq : Z) (rest : list Q) :
  ChessLogic.getRandomSquare draws exclude = Some (sq, rest) <->
  exists rejected u,
    draws = rejected ++ u :: rest /\
    Forall (fun v => In (drawnSquare v) exclude) rejected /\
    sq = drawnSquare u /\ ~ In sq exclude.
Proof.
  unfold drawnSquare. induction draws as [|v draws IH]; simpl.
  - split; [discriminate|]. intros [rejected [u [H _]]].
    destruct rejected; discriminate.
  - destruct (includes exclude (randomIndex v 64)) eqn:E.
    + apply includes_In in E. rewrite IH. split.
      * intros [rejected [u [-> [Hrej [Hsq Hfree]]]]].
        exists (v :: rejected), u. repeat split; auto.
      * intros [[|w rejected] [u [Heq [Hrej [Hsq Hfree]]]]]; simpl in Heq.
        -- injection Heq as <- <-. subst sq. contradiction.
        -- injection Heq as <- ->. inversion Hrej; subst.
           exists rejected, u. auto.
    + assert (Hfree : ~ In (randomIndex v 64) exclude).
      { intros H. apply includes_In in H. congruence. }
      split.
      * intros [= <- <-]. exists [], v. repeat split; auto.
      * intros [[|w rejected] [u [Heq [Hrej [Hsq _]]]]]; simpl in Heq.
        -- injection Heq as <- <-. now subst sq.
        -- injection Heq as <- ->. inversion Hrej; subst. contradiction.
Qed.

(** X8.  [getRandomSquare] returns the square of the first draw that misses
    [exclude], having thrown away exactly the draws before it, all of which
    hit [exclude]; with draws in the range of [Math.random()] that square is
    on the board. *)
Theorem getRandomSquare_returns_first_free_draw
        (draws : list Q) (exclude : list Z) (sq : Z) (rest : list Q) :
  (ChessLogic.getRandomSquare draws exclude = Some (sq, rest) <->
   exists rejected u,
     draws = rejected ++ u :: rest /\
     Forall (fun v => In (drawnSquare v) exclude) rejected /\
     sq = drawnSquare u /\ ~ In sq exclude) /\
  (Forall unitDraw draws ->
   ChessLogic.getRandomSquare draws exclude = Some (sq, rest) ->
   0 <= sq <= 63).
Proof.
  split; [apply getRandomSquare_first_free|].
  intros Hdraws Hres. apply getRandomSquare_first_free in Hres.
  destruct Hres as [rejected [u [-> [_ [-> _]]]]].
  apply drawnSquare_range. rewrite Forall_forall in Hdraws.
  apply Hdraws. apply in_or_app. right. now left.
Qed.

Lemma getRandomSquare_returns_first_free_draw_witness :
  0 <= 32 <= 63.
Proof.
  apply (proj2 (getRandomSquare_returns_first_free_draw
                  [0 # 1; 1 # 2; 1 # 4] [0] 32 [1 # 4])).
  - repeat constructor; simpl; try discriminate; reflexivity.
  - vm_compute. reflexivity.
Defined.

(** X9.  When every square of the board is excluded, no run of draws ends the
    loop of [getRandomSquare]: it is still drawing after any number of
    them. *)
Theorem getRandomSquare_spins_on_full_board (draws : list Q) (exclude : list Z) :
  (forall sq, 0 <= sq <= 63 -> In sq exclude) ->
  Forall unitDraw draws ->
  ChessLogic.getRandomSquare draws exclude = None.
Proof.
  intros Hfull Hdraws.
  destruct (ChessLogic.getRandomSquare draws exclude) as [[sq rest]|] eqn:E;
    [|reflexivity].
  exfalso. apply getRandomSquare_first_free in E.
  destruct E as [rejected [u [-> [_ [-> Hfree]]]]]. apply Hfree, Hfull.
  apply drawnSquare_range. rewrite Forall_forall in Hdraws.
  apply Hdraws. apply in_or_app. right. now left.
Qed.

Lemma getRandomSquare_spins_on_full_board_witness :
  ChessLogic.getRandomSquare [1 # 2; 0 # 1; 63 # 64] (map Z.of_nat (seq 0 64)) = None.
Proof.
  apply (getRandomSquare_spins_on_full_board [1 # 2; 0 # 1; 63 # 64]
                                             (map Z.of_nat (seq 0 64))).
  - intros sq Hsq. apply in_map_iff. exists (Z.to_nat sq).
    split; [lia | apply in_seq; lia].
  - repeat constructor; simpl; try discriminate; reflexivity.
Defined.

(** ** Starting a drill *)

Lemma pieceId_inj (i j : nat) : App.pieceId i = App.pieceId j -> i = j.
Proof.
  unfold App.pieceId. simpl. intros [= H].
  apply DecimalNat.Unsigned.to_uint_inj.
  apply (f_equal DecimalString.NilEmpty.uint_of_string) in H.
  rewrite !DecimalString.NilEmpty.usu in H. congruence.
Qed.

Lemma pieceIds_NoDup (i n : nat) : NoDup (map App.pieceId (seq i n)).
Proof.
  apply Finite.Injective_map_NoDup; [|apply seq_NoDup].
  intros a b. apply pieceId_inj.
Qed.

Lemma placePieces_spec (types : list PieceType) :
  forall (draws : list Q) (i : nat) (used : list Z) (sel result : list Piece)
         (rest : list Q),
    App.placePieces draws types i used sel = Some (result, rest) ->
    Forall unitDraw draws ->
    used = map square sel ->
    NoDup used ->
    (forall sq, In sq used -> 0 <= sq <= 63) ->
    map id result = map id sel ++ map App.pieceId (seq i (List.length types)) /\
    map type result = map type sel ++ types /\
    NoDup (map square result) /\
    (forall sq, In sq (map square result) -> 0 <= sq <= 63) /\
    (exists consumed, draws = consumed ++ rest).
Proof.
  induction types as [|ty types IH];
    intros draws i used sel result rest Hplace Hdraws Hused Hnd Hrange.
  - simpl in Hplace. injection Hplace as <- <-. subst used. simpl.
    rewrite !app_nil_r.
    split; [reflexivity|]. split; [reflexivity|]. split; [assumption|].
    split; [assumption|]. now exists [].
  - simpl in Hplace.
    destruct (ChessLogic.getRandomSquare draws used) as [[sq draws']|] eqn:E;
      [|discriminate].
    pose proof E as Hfirst. apply getRandomSquare_first_free in Hfirst.
    destruct Hfirst as [rejected [u [Hsplit [_ [Hsq Hfree]]]]].
    assert (Hu : unitDraw u).
    { rewrite Forall_forall in Hdraws. apply Hdraws. rewrite Hsplit.
      apply in_or_app. right. now left. }
    assert (Hdraws' : Forall unitDraw draws').
    { rewrite Forall_forall in *. intros v Hv. apply Hdraws. rewrite Hsplit.
      apply in_or_app. right. now right. }
    apply IH in Hplace; try assumption.
    + destruct Hplace as [Hids [Htypes [Hndr [Hrng [consumed Hcons]]]]].
      rewrite map_app in Hids, Htypes. simpl in Hids, Htypes.
      rewrite <- app_assoc in Hids, Htypes. simpl in Hids, Htypes.
      split; [assumption|]. split; [assumption|]. split; [assumption|].
      split; [assumption|].
      exists (rejected ++ u :: consumed). rewrite Hsplit, Hcons.
      rewrite <- app_assoc. reflexivity.
    + rewrite map_app. simpl. now rewrite Hused.
    + apply NoDup_rev in Hnd. rewrite <- (rev_involutive (used ++ [sq])).
      apply NoDup_rev. rewrite rev_app_distr. simpl.
      constructor; [now rewrite <- in_rev | assumption].
    + intros x Hx. apply in_app_or in Hx. destruct Hx as [Hx|[<-|[]]]; [auto|].
      rewrite Hsq. now apply drawnSquare_range.
Qed.

(** X10.  A drill that [startGame] has set up is in phase OBSERVING with an
    empty history and a clean score board; its pieces have the first kinds
    of the shuffle, two, three or four by difficulty, the ids p-0, p-1, ...
    in order, and stand on pairwise distinct squares of the board. *)
Theorem startGame_sets_up_the_board
        (draws rest : list Q) (shuffledTypes : list PieceType) (diff : Difficulty)
        (s : GameState) :
  Forall unitDraw draws ->
  App.startGame draws shuffledTypes diff = Some (s, rest) ->
  phase s = OBSERVING /\ difficulty s = diff /\
  targetSquare s = Null /\ moveHistory s = [] /\
  score s = 0 /\ strikes s = 0 /\ timeLeft s = App.START_TIME /\
  map type (pieces s) = firstn (App.pieceCountOf diff) shuffledTypes /\
  map id (pieces s) = map App.pieceId (seq 0 (List.length (pieces s))) /\
  boardOk (pieces s).
Proof.
  intros Hdraws Hstart. unfold App.startGame in Hstart.
  destruct (App.placePieces draws _ 0 [] []) as [[sel draws']|] eqn:E; [|discriminate].
  injection Hstart as <- <-. simpl.
  apply placePieces_spec in E; try assumption; try reflexivity;
    [|constructor | intros sq []].
  destruct E as [Hids [Htypes [Hnd [Hrng _]]]]. simpl in Hids, Htypes.
  assert (Hlen : List.length sel =
                 List.length (firstn (App.pieceCountOf diff) shuffledTypes)).
  { rewrite <- Htypes. now rewrite length_map. }
  do 7 (split; [reflexivity|]). split; [assumption|]. split; [|split; [|split]].
  - now rewrite Hlen.
  - assumption.
  - intros p Hp. apply Hrng. now apply in_map.
  - rewrite Hids. apply pieceIds_NoDup.
Qed.

Lemma startGame_sets_up_the_board_witness :
  exists s,
    App.startGame [1 # 2; 1 # 2; 0 # 1] [KNIGHT; QUEEN; ROOK; BISHOP] EASY = Some (s, []) /\
    map square (pieces s) = [32; 0] /\
    boardOk (pieces s).
Proof.
  eexists. split; [vm_compute; reflexivity|]. split; [reflexivity|].
  eapply (startGame_sets_up_the_board [1 # 2; 1 # 2; 0 # 1] []
            [KNIGHT; QUEEN; ROOK; BISHOP] EASY).
  - repeat constructor; simpl; try discriminate; reflexivity.
  - vm_compute. reflexivity.
Defined.

Lemma placePieces_returns (types : list PieceType) :
  forall (draws : list Q) (i : nat) (used : list Z) (sel : list Piece),
    NoDup (map drawnSquare draws) ->
    (forall u, In u draws -> ~ In (drawnSquare u) used) ->
    (List.length types <= List.length draws)%nat ->
    exists result,
      App.placePieces draws types i used sel =
      Some (result, skipn (List.length types) draws).
Proof.
  induction types as [|ty types IH]; intros draws i used sel Hnd Hfree Hlen.
  - simpl. eauto.
  - destruct draws as [|u draws]; [simpl in Hlen; lia|].
    simpl in Hnd. inversion Hnd as [|? ? Hu Hnd']; subst.
    cbn [App.placePieces ChessLogic.getRandomSquare].
    fold (drawnSquare u).
    assert (Hmiss : includes used (drawnSquare u) = false).
    { destruct (includes used (drawnSquare u)) eqn:E; [|reflexivity].
      apply includes_In in E. exfalso. revert E. apply Hfree. now left. }
    rewrite Hmiss. simpl skipn. apply IH.
    + assumption.
    + intros v Hv Hin. apply in_app_or in Hin. destruct Hin as [Hin|[Heq|[]]].
      * revert Hin. apply Hfree. now right.
      * apply Hu. rewrite Heq. now apply in_map.
    + simpl in Hlen. lia.
Qed.

(** X11.  When the draws hit pairwise distinct squares and there is one for
    each piece, [startGame] does set the drill up, using one draw per
    piece. *)
Theorem startGame_returns_on_distinct_draws
        (draws : list Q) (shuffledTypes : list PieceType) (diff : Difficulty) :
  NoDup (map drawnSquare draws) ->
  (List.length (firstn (App.pieceCountOf diff) shuffledTypes) <= List.length draws)%nat ->
  exists s,
    App.startGame draws shuffledTypes diff =
    Some (s, skipn (List.length (firstn (App.pieceCountOf diff) shuffledTypes)) draws).
Proof.
  intros Hnd Hlen. unfold App.startGame.
  destruct (placePieces_returns (firstn (App.pieceCountOf diff) shuffledTypes)
              draws 0 [] [] Hnd) as [result ->]; [intros u _ [] | assumption|].
  eauto.
Qed.

Lemma startGame_returns_on_distinct_draws_witness :
  exists s,
    App.startGame [1 # 2; 0 # 1; 1 # 4; 3 # 4] [ROOK; BISHOP; QUEEN; KNIGHT] INTERMEDIATE =
    Some (s, skipn (List.length (firstn (App.pieceCountOf INTERMEDIATE)
                                        [ROOK; BISHOP; QUEEN; KNIGHT]))
                   [1 # 2; 0 # 1; 1 # 4; 3 # 4]).
Proof.
  apply (startGame_returns_on_distinct_draws [1 # 2; 0 # 1; 1 # 4; 3 # 4]
           [ROOK; BISHOP; QUEEN; KNIGHT] INTERMEDIATE).
  - vm_compute. repeat constructor; simpl; intuition discriminate.
  - simpl. lia.
Defined.

(** ** The drill as a state machine *)

Lemma PieceType_eqb_eq (a b : PieceType) : PieceType_eqb a b = true <-> a = b.
Proof. destruct a, b; simpl; split; intros H; try reflexivity; discriminate. Qed.

Lemma findValidPiece_Some (s : GameState) (ty : PieceType) (vp : Piece) :
  App.findValidPiece s ty = Some vp ->
  exists t, targetSquare s = Num t /\ In vp (pieces s) /\ type vp = ty /\
            ChessLogic.canPieceReach (square vp) t (type vp) (pieces s) = true.
Proof.
  unfold App.findValidPiece. destruct (targetSquare s) as [| |t]; try discriminate.
  intros Hfind. apply find_some in Hfind. destruct Hfind as [Hin Hok].
  apply andb_true_iff in Hok. destruct Hok as [Hty Hreach].
  apply PieceType_eqb_eq in Hty. exists t. auto.
Qed.












(** X14.  An accepted move relocates one piece and nothing else: with
    distinct ids and a numeric target, the piece chosen goes to the target,
    every other piece stays as it was, ids and kinds keep their order, the
    move line runs from the old square to the target, and the history is the
    old one updated with the id of the piece. *)
Theorem move_relocates_one_piece (u : Q) (vp : Piece) (prev : GameState) (t : Z) :
  NoDup (map id (pieces prev)) ->
  In vp (pieces prev) ->
  targetSquare prev = Num t ->
  exists next,
    App.moveUpdater u vp prev = Some next /\
    map id (pieces next) = map id (pieces prev) /\
    map type (pieces next) = map type (pieces prev) /\
    In (mkPiece (id vp) (type vp) (color vp) t (isVisible vp)) (pieces next) /\
    (forall p, In p (pieces prev) -> p <> vp -> In p (pieces next)) /\
    lastMoveLine next = Some (square vp, t) /\
    moveHistory next = App.updateHistory (moveHistory prev) (id vp) /\
    phase next = phase prev /\ timeLeft next = timeLeft prev /\
    strikes next = strikes prev.
Proof.
  intros Hids Hvp Ht. unfold App.moveUpdater. rewrite Ht.
  eexists. split; [reflexivity|].
  cbn [pieces lastMoveLine moveHistory phase timeLeft strikes].
  split; [|split; [|split; [|split]]].
  - rewrite map_map. apply map_ext. intros p.
    now destruct (String.eqb (id p) (id vp)).
  - rewrite map_map. apply map_ext. intros p.
    now destruct (String.eqb (id p) (id vp)).
  - apply in_map_iff. exists vp. split; [|assumption].
    now rewrite String.eqb_refl.
  - intros p Hp Hne. apply in_map_iff. exists p. split; [|assumption].
    destruct (String.eqb_spec (id p) (id vp)) as [Heq|]; [|reflexivity].
    exfalso. apply Hne. clear - Hids Hvp Hp Heq.
    induction (pieces prev) as [|q ps IH]; [contradiction|].
    simpl in Hids. inversion Hids as [|? ? Hq Hids']; subst.
    destruct Hvp as [->|Hvp], Hp as [->|Hp]; auto.
    + exfalso. apply Hq. rewrite <- Heq. now apply in_map.
    + exfalso. apply Hq. rewrite Heq. now apply in_map.
  - repeat split.
Qed.

Lemma move_relocates_one_piece_witness :
  exists next,
    App.moveUpdater (1 # 2) (Boards.piece "p-0" KNIGHT 0) Boards.playing = Some next /\
    map square (pieces next) = [10].
Proof.
  destruct (move_relocates_one_piece (1 # 2) (Boards.piece "p-0" KNIGHT 0)
              Boards.playing 10) as [next [Hnext _]].
  - simpl. repeat constructor. simpl. tauto.
  - simpl. tauto.
  - reflexivity.
  - exists next. split; [exact Hnext|].
    vm_compute in Hnext. injection Hnext as <-. reflexivity.
Defined.

(** X15.  The score board stays consistent under every updater: the score is
    ten times the number of correct moves, the current streak is never
    negative, never above the best streak and never above the number of
    correct moves, and the strikes are never negative. *)
Theorem scoreboard_stays_consistent (u : Q) (vp : Piece) (s : GameState) :
  scoreboardOk s ->
  scoreboardOk (App.tick s) /\
  scoreboardOk (App.missUpdater s) /\
  scoreboardOk (App.startPlaying u s) /\
  (forall next, App.moveUpdater u vp s = Some next -> scoreboardOk next).
Proof.
  unfold scoreboardOk. intros [Hscore [Hstreak [Hcorrect Hstrikes]]].
  split; [|split; [|split]].
  - unfold App.tick.
    destruct (_ <=? _); cbn [score correctMoves currentStreak bestStreak strikes]; lia.
  - unfold App.missUpdater.
    destruct (_ <=? _); cbn [score correctMoves currentStreak bestStreak strikes]; lia.
  - unfold App.startPlaying.
    destruct (phase s); cbn [score correctMoves currentStreak bestStreak strikes]; lia.
  - intros next. unfold App.moveUpdater.
    destruct (targetSquare s); try discriminate.
    intros [= <-]. cbn [score correctMoves currentStreak bestStreak strikes]. lia.
Qed.

Lemma scoreboard_stays_consistent_witness :
  scoreboardOk (App.tick Boards.stalemate) /\
  scoreboardOk (App.missUpdater Boards.stalemate) /\
  scoreboardOk (App.startPlaying (1 # 2) Boards.stalemate) /\
  (forall next,
      App.moveUpdater (1 # 2) (Boards.piece "p-0" ROOK 0) Boards.stalemate = Some next ->
      scoreboardOk next).
Proof.
  apply (scoreboard_stays_consistent (1 # 2) (Boards.piece "p-0" ROOK 0)
                                     Boards.stalemate).
  unfold scoreboardOk. simpl. lia.
Defined.

(** X16.  Misses end the drill at the fifth strike.  After [n] misses in a
    row from a drill being played the strikes have grown by [n], the streak
    is 0 once there was a miss, and the phase is GAMEOVER exactly when a miss
    brought the strikes to [MAX_STRIKES] or beyond; the pieces and the target
    stay as they were. *)
Theorem misses_end_the_drill (s : GameState) (n : nat) :
  phase s = PLAYING ->
  strikes (Nat.iter n App.missUpdater s) = strikes s + Z.of_nat n /\
  phase (Nat.iter n App.missUpdater s) =
    (if (0 <? n)%nat && (App.MAX_STRIKES <=? strikes s + Z.of_nat n)
     then GAMEOVER else PLAYING) /\
  ((0 < n)%nat -> currentStreak (Nat.iter n App.missUpdater s) = 0) /\
  pieces (Nat.iter n App.missUpdater s) = pieces s /\
  targetSquare (Nat.iter n App.missUpdater s) = targetSquare s.
Proof.
  intros Hphase. induction n as [|n IH].
  - simpl. rewrite Z.add_0_r. repeat split; try assumption. lia.
  - destruct IH as [Hstr [Hph [_ [Hps Htg]]]].
    rewrite !Nat.iter_succ. set (prev := Nat.iter n App.missUpdater s) in *.
    unfold App.missUpdater. cbv zeta. rewrite Hstr.
    replace (strikes s + Z.of_nat n + 1) with (strikes s + Z.of_nat (S n)) by lia.
    destruct (Z.leb_spec App.MAX_STRIKES (strikes s + Z.of_nat (S n))) as [Hge|Hlt];
      cbn [strikes phase currentStreak pieces targetSquare andb Nat.ltb Nat.leb].
    + repeat split; assumption.
    + rewrite Hph.
      destruct (Z.leb_spec App.MAX_STRIKES (strikes s + Z.of_nat n)); [lia|].
      rewrite andb_false_r. repeat split; assumption.
Qed.

Lemma misses_end_the_drill_witness :
  strikes (Nat.iter 5 App.missUpdater Boards.playing) = strikes Boards.playing + Z.of_nat 5 /\
  phase (Nat.iter 5 App.missUpdater Boards.playing) =
    (if (0 <? 5)%nat && (App.MAX_STRIKES <=? strikes Boards.playing + Z.of_nat 5)
     then GAMEOVER else PLAYING) /\
  ((0 < 5)%nat -> currentStreak (Nat.iter 5 App.missUpdater Boards.playing) = 0) /\
  pieces (Nat.iter 5 App.missUpdater Boards.playing) = pieces Boards.playing /\
  targetSquare (Nat.iter 5 App.missUpdater Boards.playing) = targetSquare Boards.playing.
Proof. apply (misses_end_the_drill Boards.playing 5). reflexivity. Defined.

(** X17.  The clock runs down to the end of the drill.  From a drill being
    played with [timeLeft] seconds to go, [n] ticks leave [timeLeft - n]
    seconds and the phase PLAYING while [n] is below [timeLeft]; from the
    tick that uses up the time on, the phase is GAMEOVER and the time left is
    0, never below. *)
Theorem clock_runs_down (s : GameState) (n : nat) :
  phase s = PLAYING ->
  1 <= timeLeft s ->
  (Z.of_nat n < timeLeft s ->
   phase (Nat.iter n App.tick s) = PLAYING /\
   timeLeft (Nat.iter n App.tick s) = timeLeft s - Z.of_nat n) /\
  (timeLeft s <= Z.of_nat n ->
   phase (Nat.iter n App.tick s) = GAMEOVER /\
   timeLeft (Nat.iter n App.tick s) = 0) /\
  pieces (Nat.iter n App.tick s) = pieces s /\
  targetSquare (Nat.iter n App.tick s) = targetSquare s /\
  score (Nat.iter n App.tick s) = score s /\
  strikes (Nat.iter n App.tick s) = strikes s.
Proof.
  intros Hphase Htime. induction n as [|n IH].
  - simpl. repeat split; try assumption; lia.
  - destruct IH as [Hbefore [Hafter [Hps [Htg [Hsc Hst]]]]].
    rewrite !Nat.iter_succ. set (prev := Nat.iter n App.tick s) in *.
    assert (Hrest : pieces (App.tick prev) = pieces s /\
                    targetSquare (App.tick prev) = targetSquare s /\
                    score (App.tick prev) = score s /\
                    strikes (App.tick prev) = strikes s).
    { unfold App.tick. destruct (_ <=? _); simpl; auto. }
    split; [|split; [|exact Hrest]].
    + intros Hlt. destruct Hbefore as [Hp Ht]; [lia|].
      unfold App.tick. rewrite Ht.
      destruct (Z.leb_spec (timeLeft s - Z.of_nat n) 1); [lia|].
      simpl. split; [assumption | lia].
    + intros Hge. unfold App.tick.
      destruct (Z.le_gt_cases (timeLeft s) (Z.of_nat n)) as [Hdone|Hlast].
      * destruct Hafter as [Hp Ht]; [assumption|]. rewrite Ht. simpl. auto.
      * destruct Hbefore as [Hp Ht]; [lia|]. rewrite Ht.
        destruct (Z.leb_spec (timeLeft s - Z.of_nat n) 1); [|lia].
        simpl. auto.
Qed.

Lemma clock_runs_down_witness :
  (Z.of_nat 120 < timeLeft Boards.playing ->
   phase (Nat.iter 120 App.tick Boards.playing) = PLAYING /\
   timeLeft (Nat.iter 120 App.tick Boards.playing) = timeLeft Boards.playing - Z.of_nat 120) /\
  (timeLeft Boards.playing <= Z.of_nat 120 ->
   phase (Nat.iter 120 App.tick Boards.playing) = GAMEOVER /\
   timeLeft (Nat.iter 120 App.tick Boards.playing) = 0) /\
  pieces (Nat.iter 120 App.tick Boards.playing) = pieces Boards.playing /\
  targetSquare (Nat.iter 120 App.tick Boards.playing) = targetSquare Boards.playing /\
  score (Nat.iter 120 App.tick Boards.playing) = score Boards.playing /\
  strikes (Nat.iter 120 App.tick Boards.playing) = strikes Boards.playing.
Proof.
  apply (clock_runs_down Boards.playing 120); [reflexivity | simpl; lia].
Defined.

(** X18.  With a target that is no square of the board - the sentinel -1
    above all - no kind is ever accepted: every click that is looked at is
    handled as a miss. *)
Theorem off_board_target_only_yields_misses
        (u : Q) (ty : PieceType) (state prev : GameState) (t : Z) :
  targetSquare state = Num t ->
  ~ 0 <= t <= 63 ->
  App.findValidPiece state ty = None /\
  (App.clickAccepted state false false = true ->
   App.handlePieceSelect u false false ty state prev = Some (App.missUpdater prev)).
Proof.
  intros Ht Hoff.
  assert (Hnone : App.findValidPiece state ty = None).
  { destruct (App.findValidPiece state ty) as [vp|] eqn:E; [|reflexivity].
    exfalso. apply findValidPiece_Some in E.
    destruct E as [t' [Ht' [_ [_ Hreach]]]].
    rewrite Ht in Ht'. injection Ht' as <-.
    apply canPieceReach_true, rawMoves_cell in Hreach.
    destruct Hreach as [r [c [Hb [-> _]]]]. apply onBoard_true in Hb. lia. }
  split; [assumption|].
  intros Hclick. unfold App.handlePieceSelect. now rewrite Hclick, Hnone.
Qed.

Lemma off_board_target_only_yields_misses_witness :
  App.findValidPiece Boards.stalemate ROOK = None /\
  (App.clickAccepted Boards.stalemate false false = true ->
   App.handlePieceSelect (1 # 2) false false ROOK Boards.stalemate Boards.stalemate
   = Some (App.missUpdater Boards.stalemate)).
Proof.
  apply (off_board_target_only_yields_misses (1 # 2) ROOK Boards.stalemate
                                             Boards.stalemate (-1)).
  - reflexivity.
  - lia.
Defined.

Example stalemate_is_what_the_selector_answers :
  ChessLogic.generateTargetSquare (1 # 2) (pieces Boards.stalemate)
                                  (moveHistory Boards.stalemate) = Some (-1).
Proof. vm_compute. reflexivity. Qed.

(** ** The target always has an answer *)

Lemma validMove_is_reached (ps : list Piece) (p : Piece) (t : Z) :
  In t (ChessLogic.validMovesOf ps p) ->
  ChessLogic.canPieceReach (square p) t (type p) ps = true.
Proof.
  unfold ChessLogic.validMovesOf, ChessLogic.canPieceReach, ChessLogic.blockersOf.
  rewrite filter_In. intros [Hin _]. now apply includes_In.
Qed.

Lemma reached_empty_square_is_valid (ps : list Piece) (p : Piece) (t : Z) :
  ChessLogic.canPieceReach (square p) t (type p) ps = true ->
  ~ In t (map square ps) ->
  In t (ChessLogic.validMovesOf ps p).
Proof.
  unfold ChessLogic.validMovesOf, ChessLogic.canPieceReach, ChessLogic.blockersOf.
  intros Hreach Hfree. apply filter_In. split; [now apply includes_In|].
  apply negb_true_iff. destruct (existsb _ ps) eqn:E; [|reflexivity].
  exfalso. apply Hfree. apply existsb_exists in E. destruct E as [q [Hq Heq]].
  apply Z.eqb_eq in Heq. rewrite <- Heq. now apply in_map.
Qed.

(** X19.  A target other than the sentinel can be answered: some piece of the
    board reaches it, so the player has a kind to choose that
    [handlePieceSelect] accepts. *)
Theorem target_can_be_answered
        (u : Q) (history : list string) (s : GameState) (t : Z) :
  ChessLogic.generateTargetSquare u (pieces s) history = Some t ->
  t <> -1 ->
  targetSquare s = Num t ->
  exists ty vp,
    App.findValidPiece s ty = Some vp /\ type vp = ty /\ In vp (pieces s) /\
    ChessLogic.canPieceReach (square vp) t ty (pieces s) = true.
Proof.
  intros Hgen Hne Ht. apply generateTargetSquare_result in Hgen.
  destruct Hgen as [[-> _]|[p [Hp Hm]]]; [contradiction|].
  apply validMove_is_reached in Hm.
  exists (type p).
  destruct (App.findValidPiece s (type p)) as [vp|] eqn:E.
  - exists vp. pose proof E as Hsome. apply findValidPiece_Some in Hsome.
    destruct Hsome as [t' [Ht' [Hin [Hty Hreach]]]].
    rewrite Ht in Ht'. injection Ht' as <-.
    repeat split; try assumption. now rewrite <- Hty.
  - exfalso. unfold App.findValidPiece in E. rewrite Ht in E.
    apply (find_none _ _ E) in Hp. rewrite Hm, andb_true_r in Hp.
    assert (Hrefl : PieceType_eqb (type p) (type p) = true)
      by now apply PieceType_eqb_eq.
    congruence.
Qed.

Lemma target_can_be_answered_witness :
  exists ty vp,
    App.findValidPiece Boards.playing ty = Some vp /\ type vp = ty /\
    In vp (pieces Boards.playing) /\
    ChessLogic.canPieceReach (square vp) 10 ty (pieces Boards.playing) = true.
Proof.
  apply (target_can_be_answered (1 # 4) [] Boards.playing 10).
  - vm_compute. reflexivity.
  - lia.
  - reflexivity.
Defined.

Lemma weighted_branch_target_is_unique (u : Q) (ps : list Piece)
      (history : list string) (t : Z) :
  ChessLogic.uniqueTargets ps <> [] ->
  ChessLogic.generateTargetSquare u ps history = Some t ->
  In t (ChessLogic.uniqueTargets ps).
Proof.
  intros Hut. rewrite generateTargetSquare_branches.
  destruct (ChessLogic.uniqueTargets ps) as [|s0 ut] eqn:E; [contradiction|].
  destruct (Qle_bool _ 0).
  - apply at_index_In.
  - intros H. apply weightedDraw_In in H.
    now rewrite weightedPool_squares, E in H.
Qed.

Lemma unique_target_single_reacher (ps : list Piece) (t : Z) :
  In t (ChessLogic.uniqueTargets ps) ->
  exists p0, Spec.reachers ps ps t = [p0].
Proof.
  rewrite uniqueTargets_In, reachCount_reachers. intros Hone.
  destruct (Spec.reachers ps ps t) as [|p0 [|p1 l]]; simpl in Hone; try lia.
  now exists p0.
Qed.

Lemma unique_target_empty (ps : list Piece) (t : Z) :
  In t (ChessLogic.uniqueTargets ps) -> ~ In t (map square ps).
Proof.
  intros Hin Hocc. apply uniqueTargets_valid in Hin.
  destruct Hin as [p [Hp Hm]].
  apply in_map_iff in Hocc. destruct Hocc as [q [Hsq Hq]].
  revert Hsq. eapply validMovesOf_empty_square; eassumption.
Qed.

(** X20.  While unique targets exist the answer is unambiguous: the target
    returned is reached by one piece of the board and no other. *)
Theorem unique_target_has_one_answer
        (u : Q) (ps : list Piece) (history : list string) (t : Z) (p q : Piece) :
  ChessLogic.uniqueTargets ps <> [] ->
  ChessLogic.generateTargetSquare u ps history = Some t ->
  In p ps -> In q ps ->
  ChessLogic.canPieceReach (square p) t (type p) ps = true ->
  ChessLogic.canPieceReach (square q) t (type q) ps = true ->
  p = q.
Proof.
  intros Hut Hgen Hp Hq Hrp Hrq.
  pose proof (weighted_branch_target_is_unique u ps history t Hut Hgen) as Hin.
  pose proof (unique_target_empty ps t Hin) as Hfree.
  destruct (unique_target_single_reacher ps t Hin) as [p0 Hone].
  assert (Hmem : forall x, In x ps ->
             ChessLogic.canPieceReach (square x) t (type x) ps = true -> x = p0).
  { intros x Hx Hrx.
    assert (Hxin : In x (Spec.reachers ps ps t)).
    { apply filter_In. split; [assumption|]. apply includes_In.
      now apply reached_empty_square_is_valid. }
    rewrite Hone in Hxin. destruct Hxin as [<-|[]]. reflexivity. }
  rewrite (Hmem p Hp Hrp), (Hmem q Hq Hrq). reflexivity.
Qed.

Lemma unique_target_has_one_answer_witness :
  Boards.piece "p-2" BISHOP 8 = Boards.piece "p-2" BISHOP 8.
Proof.
  apply (unique_target_has_one_answer (1 # 2) Boards.threePieces [] 26
           (Boards.piece "p-2" BISHOP 8) (Boards.piece "p-2" BISHOP 8)).
  - vm_compute. discriminate.
  - vm_compute. reflexivity.
  - simpl. tauto.
  - simpl. tauto.
  - vm_compute. reflexivity.
  - vm_compute. reflexivity.
Defined.

(** ** The selector on doubles, whatever the draw *)

Lemma binary64_result (u : float) (pieces : list Piece) (history : list string) (t : Z) :
  Binary64.generateTargetSquare u pieces history = Some t ->
  (t = -1 /\ ChessLogic.fallbackPool pieces = []) \/
  (exists p, In p pieces /\ In t (ChessLogic.validMovesOf pieces p)).
Proof.
  rewrite binary64_branches.
  destruct (ChessLogic.uniqueTargets pieces) as [|s0 ut] eqn:Hut.
  - destruct (ChessLogic.fallbackPool pieces) as [|m0 pool] eqn:Hpool.
    + intros [= <-]. left. auto.
    + intros H. right. apply binary64_pick_In in H. rewrite <- Hpool in H.
      now apply fallbackPool_valid.
  - intros H. right. apply uniqueTargets_valid. rewrite Hut.
    destruct (PrimFloat.leb _ 0).
    + eapply binary64_pick_In; eassumption.
    + unfold Binary64.weightedDraw in H.
      pose proof (binary64_pool_squares pieces history) as Hsq. rewrite Hut in Hsq.
      destruct (Binary64.weightedWalk _ _) as [t'|] eqn:Ew.
      * injection H as ->. apply binary64_walk_In in Ew. now rewrite Hsq in Ew.
      * destruct (Binary64.weightedPool pieces history) as [|[sq w] pool];
          [discriminate|].
        injection H as <-. rewrite <- Hsq. now left.
Qed.

(** X21.  With distinct piece ids and every number a double, whatever value
    the draw has (in or out of the range of [Math.random()], NaN included), a
    number returned by [generateTargetSquare] is either the sentinel -1, and
    then no piece has a valid move, or a square of the board that no piece
    stands on and that some piece can move to. *)
Theorem double_draw_yields_sentinel_or_valid_move
        (u : float) (pieces : list Piece) (history : list string) (t : Z) :
  NoDup (map id pieces) ->
  Binary64.generateTargetSquare u pieces history = Some t ->
  (t = -1 /\ forall p, In p pieces -> ChessLogic.validMovesOf pieces p = []) \/
  (0 <= t <= 63 /\ ~ In t (map square pieces) /\
   exists p, In p pieces /\
             ChessLogic.canPieceReach (square p) t (type p) pieces = true).
Proof.
  intros Hids Hres. apply binary64_result in Hres.
  destruct Hres as [[-> Hpool]|[p [Hp Ht]]].
  - left. split; [reflexivity|]. intros p Hp.
    rewrite (fallbackPool_distinct_ids pieces Hids) in Hpool.
    destruct (ChessLogic.validMovesOf pieces p) as [|m vm] eqn:E; [reflexivity|].
    assert (Hin : In m (flat_map (ChessLogic.validMovesOf pieces) pieces)).
    { apply in_flat_map. exists p. split; [assumption|]. rewrite E. now left. }
    rewrite Hpool in Hin. contradiction.
  - right. split; [eapply validMovesOf_range; eassumption|]. split.
    + intros Hocc. apply in_map_iff in Hocc. destruct Hocc as [q [Hsq Hq]].
      revert Hsq. eapply validMovesOf_empty_square; eassumption.
    + exists p. split; [assumption | now apply validMove_is_reached].
Qed.

Lemma double_draw_yields_sentinel_or_valid_move_witness :
  (53 = -1 /\
   forall p, In p Boards.crossedBishops ->
             ChessLogic.validMovesOf Boards.crossedBishops p = []) \/
  (0 <= 53 <= 63 /\ ~ In 53 (map square Boards.crossedBishops) /\
   exists p, In p Boards.crossedBishops /\
             ChessLogic.canPieceReach (square p) 53 (type p) Boards.crossedBishops = true).
Proof.
  apply (double_draw_yields_sentinel_or_valid_move
           Binary64.roundsUp Boards.crossedBishops [] 53).
  - vm_compute. repeat constructor; simpl; intuition discriminate.
  - vm_compute. reflexivity.
Defined.

(** ** The earlier target generator *)

(** X22.  The target generator of the earlier [App.tsx], on any two double
    draws: a number it returns is a square some piece of the board reaches,
    and it is an occupied square only when the piece drawn has no empty
    square to go to.  (The present selector never returns an occupied
    square.) *)
Theorem early_target_is_reached_maybe_occupied
        (u1 u2 : float) (ps : list Piece) (t : Z) :
  EarlyApp.generateNewTarget u1 u2 ps = Some t ->
  exists p, In p ps /\
            ChessLogic.canPieceReach (square p) t (type p) ps = true /\
            (In t (map square ps) -> ChessLogic.validMovesOf ps p = []).
Proof.
  unfold EarlyApp.generateNewTarget.
  destruct (Binary64.pick ps _) as [p|] eqn:Ep; [|discriminate].
  apply binary64_pick_In in Ep. cbv zeta.
  fold (ChessLogic.blockersOf ps p). fold (ChessLogic.validMovesOf ps p).
  destruct (ChessLogic.validMovesOf ps p) as [|m vm] eqn:Evm; cbn [List.length Nat.eqb].
  - intros Ht. apply binary64_pick_In in Ht. exists p.
    split; [assumption|]. split; [|intros _; exact Evm].
    unfold ChessLogic.canPieceReach. now apply includes_In.
  - intros Ht. apply binary64_pick_In in Ht. rewrite <- Evm in Ht. exists p.
    split; [assumption|]. split; [now apply validMove_is_reached|].
    intros Hocc. exfalso.
    apply in_map_iff in Hocc. destruct Hocc as [q [Hsq Hq]].
    revert Hsq. eapply validMovesOf_empty_square; eassumption.
Qed.

Lemma early_target_is_reached_maybe_occupied_witness :
  exists p, In p Boards.boxedKnight /\
            ChessLogic.canPieceReach (square p) 10 (type p) Boards.boxedKnight = true /\
            (In 10 (map square Boards.boxedKnight) ->
             ChessLogic.validMovesOf Boards.boxedKnight p = []).
Proof.
  apply (early_target_is_reached_maybe_occupied 0 0 Boards.boxedKnight 10).
  vm_compute. reflexivity.
Defined.

(** The occupied case does arise: with the knight drawn, the earlier
    generator names c7, where a rook stands; the present selector, on the
    same board and draw, names an empty square. *)
Example early_target_can_be_occupied :
  EarlyApp.generateNewTarget 0 0 Boards.boxedKnight = Some 10 /\
  In 10 (map square Boards.boxedKnight) /\
  Binary64.generateTargetSquare 0 Boards.boxedKnight [] = Some 2.
Proof. split; [vm_compute; reflexivity|]. split; [simpl; tauto|]. vm_compute. reflexivity. Qed.
